(** * lspoints-toolkit: the Markdown flattening renderer (markdown.ts)

    A shallow embedding of [parseMarkdown] and of the [Renderer] class it
    drives, with the properties of the rendered text lines and attribute
    spans that the specification states. *)

From Stdlib Require Import String.
From Stdlib Require Import ZArith List Bool Lia Ascii Permutation.
Import ListNotations.
Local Open Scope Z_scope.

(** [length] is the length of a list throughout. *)
Abbreviation length := List.length.

(* ===================================================================== *)
(** ** JavaScript strings *)
(* ===================================================================== *)

(** A JavaScript string is a sequence of UTF-16 code units. *)
Definition jsstring := list Z.

(** ASCII literals of the source, written as Rocq strings. *)
Definition str (s : string) : jsstring :=
  map (fun a => Z.of_nat (nat_of_ascii a)) (String.list_ascii_of_string s).
Arguments str s%_string.

Module JS.

Definition is_high (c : Z) : bool := (0xD800 <=? c) && (c <=? 0xDBFF).
Definition is_low (c : Z) : bool := (0xDC00 <=? c) && (c <=? 0xDFFF).

(** UTF-8 encoding of one Unicode scalar value. *)
Definition utf8 (cp : Z) : list Z :=
  if cp <? 0x80 then [cp]
  else if cp <? 0x800 then
    [Z.lor 0xC0 (Z.shiftr cp 6); Z.lor 0x80 (Z.land cp 0x3F)]
  else if cp <? 0x10000 then
    [Z.lor 0xE0 (Z.shiftr cp 12);
     Z.lor 0x80 (Z.land (Z.shiftr cp 6) 0x3F);
     Z.lor 0x80 (Z.land cp 0x3F)]
  else
    [Z.lor 0xF0 (Z.shiftr cp 18);
     Z.lor 0x80 (Z.land (Z.shiftr cp 12) 0x3F);
     Z.lor 0x80 (Z.land (Z.shiftr cp 6) 0x3F);
     Z.lor 0x80 (Z.land cp 0x3F)].

(** [TextEncoder.encode]: the string is read as a sequence of code points,
    a surrogate pair giving one code point and a lone surrogate U+FFFD. *)
Fixpoint encode (s : jsstring) : list Z :=
  match s with
  | [] => []
  | c :: r =>
      if is_high c then
        match r with
        | d :: r' =>
            if is_low d
            then utf8 (0x10000 + (c - 0xD800) * 0x400 + (d - 0xDC00)) ++ encode r'
            else utf8 0xFFFD ++ encode r
        | [] => utf8 0xFFFD
        end
      else if is_low c then utf8 0xFFFD ++ encode r
      else utf8 c ++ encode r
  end.

(** Number of code points of a string (a surrogate pair counts once). *)
Fixpoint codePoints (s : jsstring) : nat :=
  match s with
  | [] => O
  | c :: r =>
      if is_high c then
        match r with
        | d :: r' => if is_low d then S (codePoints r') else S (codePoints r)
        | [] => 1%nat
        end
      else S (codePoints r)
  end.

(** The class [\s] of a regular expression: white space and line
    terminators. *)
Definition is_space (c : Z) : bool :=
  ((0x09 <=? c) && (c <=? 0x0D)) || (c =? 0x20) || (c =? 0xA0)
  || (c =? 0x1680) || ((0x2000 <=? c) && (c <=? 0x200A))
  || (c =? 0x2028) || (c =? 0x2029) || (c =? 0x202F) || (c =? 0x205F)
  || (c =? 0x3000) || (c =? 0xFEFF).

(** [/^\s*$/.test(v)] *)
Definition is_blank (v : jsstring) : bool := forallb is_space v.

(** [v === ''] *)
Definition is_empty (v : jsstring) : bool :=
  match v with [] => true | _ :: _ => false end.

(** [s.split(/\n/)], which always has a first segment. *)
Fixpoint split_nl (s : jsstring) : jsstring * list jsstring :=
  match s with
  | [] => ([], [])
  | c :: r =>
      let '(top, rest) := split_nl r in
      if c =? 10 then ([], top :: rest) else (c :: top, rest)
  end.

(** [s.replace(/\n$/, '')] *)
Fixpoint chomp (s : jsstring) : jsstring :=
  match s with
  | [] => []
  | c :: r =>
      match r with
      | [] => if c =? 10 then [] else [c]
      | _ :: _ => c :: chomp r
      end
  end.

(** [s.replace(/(?<=\n)\s+/g, '')]: every run of white space that starts
    right after a line feed is removed; [skipping] holds inside such a
    run. *)
Fixpoint strip_after_nl (skipping : bool) (s : jsstring) : jsstring :=
  match s with
  | [] => []
  | c :: r =>
      if skipping && is_space c then strip_after_nl true r
      else c :: strip_after_nl (c =? 10) r
  end.

(** [c.repeat(n)] for a one-unit string [c]. *)
Definition repeat (c : Z) (n : nat) : jsstring := List.repeat c n.

(** [s.padStart(n, " ")] *)
Definition padStart (s : jsstring) (n : nat) : jsstring :=
  repeat 32 (n - length s) ++ s.

(** [n.toString()] for a non-negative integer: its decimal digits. *)
Fixpoint digits (fuel n : nat) (acc : jsstring) : jsstring :=
  match fuel with
  | O => acc
  | S fuel' =>
      let acc' := (48 + Z.of_nat (n mod 10)) :: acc in
      match (n / 10)%nat with
      | O => acc'
      | S _ as q => digits fuel' q acc'
      end
  end.

Definition toString (n : nat) : jsstring := digits (S n) n [].

(** [dropLastWhile(array, predicate)] of @std/collections. *)
Fixpoint dropLastWhile {A} (p : A -> bool) (l : list A) : list A :=
  match l with
  | [] => []
  | x :: r =>
      match dropLastWhile p r with
      | [] => if p x then [] else [x]
      | (_ :: _) as r' => x :: r'
      end
  end.

End JS.

(** [strBytes]: the length of the UTF-8 encoding of [text]. *)
Definition strBytes (text : jsstring) : Z :=
  Z.of_nat (length (JS.encode text)).

(* ===================================================================== *)
(** ** Positions, ranges and attribute spans (markup_text.ts) *)
(* ===================================================================== *)

Record Position := mkPosition { line : Z; character : Z }.

Record Range := mkRange { start : Position; end_ : Position }.

(** The kinds of [TextAttrItemGeneral]: a range and nothing else. *)
Inductive GeneralType :=
| bold | strike | italic | link | url | codespan | codespanDelimiter.

(** [TextAttrItem]. *)
Inductive TextAttrItem :=
| fenced (range : Range) (lang : jsstring)
| title (range : Range) (depth : Z)
| horizontalrule (hline : Z)
| general (type : GeneralType) (range : Range).

(** [transformPosition] *)
Definition transformPosition (attr : TextAttrItem) (delta : Position)
  : TextAttrItem :=
  let shift (src : Range) :=
    {| start := {| line := line (start src) + line delta;
                   character := character (start src) + character delta |};
       end_ := {| line := line (end_ src) + line delta;
                  character := character (end_ src) + character delta |} |} in
  match attr with
  | horizontalrule l => horizontalrule (l + line delta)
  | fenced src lang => fenced (shift src) lang
  | title src depth => title (shift src) depth
  | general ty src => general ty (shift src)
  end.

(* ===================================================================== *)
(** ** Tokens of the tokenizer *)
(* ===================================================================== *)

(** [MarkedToken], with the fields the renderer reads.  A [text] token also
    carries the inline tokens found in it ([Tokens.Text.tokens]). *)
#[local] Unset Elimination Schemes.
Inductive Token :=
| TSpace (raw : jsstring)
| TCode (text : jsstring) (lang : option jsstring)
| THeading (depth : nat) (tokens : list Token)
| TTable (raw : jsstring)
| THr
| TBlockquote (tokens : list Token)
| TList (ordered : bool) (items : list Token)
| TListItem (checked : option bool) (tokens : list Token)
| TParagraph (tokens : list Token)
| THtml
| TText (text : jsstring) (tokens : list Token)
| TDef
| TEscape
| TImage (text href : jsstring) (title : option jsstring)
| TLink (tokens : list Token) (href : jsstring) (title : option jsstring)
| TStrong (tokens : list Token)
| TEm (tokens : list Token)
| TCodespan (text : jsstring)
| TBr
| TDel (tokens : list Token).
#[local] Set Elimination Schemes.

(** [item.checked], [undefined] on a token that is no list item. *)
Definition item_checked (item : Token) : option bool :=
  match item with
  | TListItem checked _ => checked
  | _ => None
  end.

(** Truthiness of [v.checked]. *)
Definition truthy (v : option bool) : bool :=
  match v with Some true => true | _ => false end.

(* ===================================================================== *)
(** ** Exceptions and the renderer's state *)
(* ===================================================================== *)

Inductive Exception :=
| NotImplementedError (message : jsstring)
| Error (message : jsstring).

(** The fields of a [Renderer] instance. *)
Record Renderer := mkRenderer {
  text : list jsstring;
  attrs : list TextAttrItem
}.

(** [new Renderer()] *)
Definition newRenderer : Renderer := {| text := []; attrs := [] |}.

(** A method of [Renderer]: it reads and updates the instance, and returns
    or throws. *)
Definition M (A : Type) : Type := Renderer -> Exception + (A * Renderer).

Definition ret {A} (a : A) : M A := fun st => inr (a, st).

Definition bind {A B} (c : M A) (k : A -> M B) : M B :=
  fun st =>
    match c st with
    | inl e => inl e
    | inr (a, st') => k a st'
    end.

Definition throw {A} (e : Exception) : M A := fun _ => inl e.

Definition gets {A} (f : Renderer -> A) : M A := fun st => inr (f st, st).

Definition modify (f : Renderer -> Renderer) : M unit :=
  fun st => inr (tt, f st).

Declare Scope render_scope.
Delimit Scope render_scope with render.
Notation "x <- c ;; k" := (bind c (fun x => k))
  (at level 61, c at next level, right associativity) : render_scope.
Notation "c ;; k" := (bind c (fun _ => k))
  (at level 61, right associativity) : render_scope.
Local Open Scope render_scope.

(** [this.text.push(...lines)] *)
Definition pushText (lines : list jsstring) : M unit :=
  modify (fun st => {| text := text st ++ lines; attrs := attrs st |}).

(** [this.attrs.push(...items)] *)
Definition pushAttrs (items : list TextAttrItem) : M unit :=
  modify (fun st => {| text := text st; attrs := attrs st ++ items |}).

(** [this.text[this.text.length - 1]], [undefined] on an empty buffer. *)
Definition lastLine (t : list jsstring) : option jsstring :=
  match t with
  | [] => None
  | _ :: _ => Some (last t [])
  end.

(** [#getEofPosition]; [encode(undefined)] encodes the empty string. *)
Definition getEofPosition (exclusive : bool) (st : Renderer) : Position :=
  {| line := Z.of_nat (length (text st));
     character :=
       strBytes (match lastLine (text st) with
                 | None => []
                 | Some l => l
                 end) + 1 + (if exclusive then 1 else 0) |}.

Section Render.

(** [unescape] of @std/html/entities. *)
Variable unescape : jsstring -> jsstring.

(** [#appendText] *)
Definition appendText (t : jsstring) : M Range :=
  fun st =>
    let '(top, rest) := JS.split_nl (unescape t) in
    match text st with
    | [] =>
        let st' := {| text := top :: rest; attrs := attrs st |} in
        inr ({| start := {| line := 1; character := 1 |};
                end_ := getEofPosition false st' |}, st')
    | _ :: _ =>
        let start := getEofPosition false st in
        let st' :=
          {| text := removelast (text st) ++ (last (text st) [] ++ top) :: rest;
             attrs := attrs st |} in
        inr ({| start := start; end_ := getEofPosition false st' |}, st')
    end.

(** [tokens.forEach(f)] and [items.forEach((item, idx) => f(item, idx))]. *)
Section ForEach.
Context {A : Type}.
Variable f : A -> M unit.
Variable g : A -> nat -> M unit.

Fixpoint forEach (l : list A) : M unit :=
  match l with
  | [] => ret tt
  | x :: r => f x ;; forEach r
  end.

Fixpoint forEachIdx (idx : nat) (l : list A) : M unit :=
  match l with
  | [] => ret tt
  | x :: r => g x idx ;; forEachIdx (S idx) r
  end.
End ForEach.

(** [#renderList], over the given [#renderOne]. *)
Definition renderListWith (renderOne : Token -> M unit) (tokens : list Token)
  : M Range :=
  start <- gets (getEofPosition false) ;;
  forEach renderOne tokens ;;
  end_ <- gets (getEofPosition false) ;;
  ret {| start := start; end_ := end_ |}.

(** [new Renderer().render(tokens)], over the given [#renderOne]: the
    buffers of the fresh instance, or the exception. *)
Definition renderWith (renderOne : Token -> M unit) (tokens : list Token)
  : Exception + Renderer :=
  match renderListWith renderOne tokens newRenderer with
  | inl e => inl e
  | inr (_, st) => inr st
  end.

(** The result of a sub-render, made a step of the calling method. *)
Definition subRender (r : Exception + Renderer) : M Renderer :=
  fun st =>
    match r with
    | inl e => inl e
    | inr sub => inr (sub, st)
    end.

(** The bullet of an unordered list, as the source file stores it. *)
Definition labelChar : jsstring := [0xE2; 0x20AC; 0xA2].

Definition labelSize (ordered : bool) (items : list Token) : nat :=
  if ordered
  then (length (JS.toString (length items)) + 1)%nat
  else Z.to_nat (strBytes labelChar).

Definition checkboxSize (items : list Token) : nat :=
  if (0 <? length (filter (fun v => truthy (item_checked v)) items))%nat
  then 4%nat
  else 0%nat.

Definition itemLabel (ordered : bool) (items : list Token) (idx : nat)
  : jsstring :=
  if ordered
  then JS.padStart (JS.toString (idx + 1)) (labelSize ordered items - 1)
         ++ str "."
  else labelChar.

Definition itemCheckbox (items : list Token) (item : Token) : jsstring :=
  match item_checked item with
  | None => JS.repeat 32 (checkboxSize items)
  | Some true => str " [x]"
  | Some false => str " [ ]"
  end.

Definition indentSize (ordered : bool) (items : list Token) : nat :=
  (labelSize ordered items + checkboxSize items + 1)%nat.

(** The body of the [forEach] of the list case, after the item's
    sub-render returned [sub]. *)
Definition mergeItem (ordered : bool) (items : list Token) (item : Token)
           (idx : nat) (sub : Renderer) : M unit :=
  let hd := match text sub with
            | [] => str "undefined"
            | h :: _ => h
            end in
  let tl := List.tl (text sub) in
  pushText [itemLabel ordered items idx ++ itemCheckbox items item
              ++ str " " ++ hd] ;;
  pushText (map (fun v => JS.repeat 32 (indentSize ordered items) ++ v) tl) ;;
  pushAttrs
    (map (fun attr =>
            transformPosition attr
              {| line := 0;
                 character := Z.of_nat (indentSize ordered items) |})
         (attrs sub)).

(** [#renderOne] *)
Fixpoint renderOne (token : Token) : M unit :=
  let renderList := renderListWith renderOne in
  let render := renderWith renderOne in
  match token with
  | THeading depth tokens =>
      r1 <- appendText (JS.repeat 35 depth ++ str " ") ;;
      r2 <- renderList tokens ;;
      pushText [[]] ;;
      pushAttrs [title {| start := start r1; end_ := end_ r2 |}
                       (Z.of_nat depth)]
  | TParagraph tokens =>
      renderList tokens ;;
      pushText [[]]
  | TText text _ =>
      appendText text ;; ret tt
  | TSpace raw =>
      appendText (JS.chomp raw) ;; ret tt
  | TBr =>
      pushText [[]]
  | TStrong tokens =>
      range <- renderList tokens ;;
      pushAttrs [general bold range]
  | TDel tokens =>
      range <- renderList tokens ;;
      pushAttrs [general strike range]
  | TEm tokens =>
      range <- renderList tokens ;;
      pushAttrs [general italic range]
  | TLink tokens href ttl =>
      appendText (str "[") ;;
      range <- renderList tokens ;;
      pushAttrs [general link range] ;;
      appendText (str "](") ;;
      range <- appendText href ;;
      pushAttrs [general url range] ;;
      match ttl with
      | Some ((_ :: _) as t) =>
          appendText (str " ") ;;
          range <- appendText t ;;
          pushAttrs [title range 0]
      | _ => ret tt
      end ;;
      appendText (str ")") ;; ret tt
  | TImage text href ttl =>
      appendText (str "![") ;;
      range <- appendText text ;;
      pushAttrs [general link range] ;;
      appendText (str "](") ;;
      range <- appendText href ;;
      pushAttrs [general url range] ;;
      match ttl with
      | Some ((_ :: _) as t) =>
          appendText (str " ") ;;
          range <- appendText t ;;
          pushAttrs [title range 0]
      | _ => ret tt
      end ;;
      appendText (str ")") ;; ret tt
  | TCode text lang =>
      range <- appendText text ;;
      pushAttrs [fenced range (match lang with Some l => l | None => [] end)] ;;
      pushText [[]]
  | TCodespan text =>
      range <- appendText (str "`") ;;
      pushAttrs [general codespanDelimiter range] ;;
      range <- appendText text ;;
      pushAttrs [general codespan range] ;;
      range <- appendText (str "`") ;;
      pushAttrs [general codespanDelimiter range]
  | TBlockquote tokens =>
      sub <- subRender (render tokens) ;;
      len <- gets (fun st => length (text st)) ;;
      let quoted :=
        map (fun v => str "> " ++ v)
            (JS.dropLastWhile JS.is_blank (text sub)) in
      let shifted :=
        map (fun attr =>
               transformPosition attr
                 {| line := Z.of_nat len; character := 2 |})
            (attrs sub) in
      pushText (quoted ++ [[]]) ;;
      pushAttrs shifted
  | THr =>
      pushText [[]] ;;
      len <- gets (fun st => length (text st)) ;;
      pushAttrs [horizontalrule (Z.of_nat len - 1)]
  | TTable raw =>
      appendText raw ;; ret tt
  | TList ordered items =>
      forEachIdx
        (fun item idx =>
           sub <- subRender (render [item]) ;;
           mergeItem ordered items item idx sub)
        O items
  | TListItem _ tokens =>
      forEach
        (fun chTok =>
           match chTok with
           | TList _ _ =>
               sub <- subRender (render [chTok]) ;;
               len <- gets (fun st => length (text st)) ;;
               let transformed :=
                 map (fun attr =>
                        transformPosition attr
                          {| line := Z.of_nat len; character := 0 |})
                     (attrs sub) in
               pushText (text sub) ;;
               pushAttrs transformed
           | TText text _ =>
               appendText (JS.strip_after_nl false text) ;; ret tt
           | _ => renderOne chTok
           end)
        tokens
  | THtml => throw (NotImplementedError (str "Not implemented yet: html"))
  | TDef => throw (NotImplementedError (str "Not implemented yet: def"))
  | TEscape => throw (NotImplementedError (str "Not implemented yet: escape"))
  end.

(** [#renderList] *)
Definition renderList : list Token -> M Range := renderListWith renderOne.

(** [render] on a fresh instance. *)
Definition render : list Token -> Exception + Renderer := renderWith renderOne.

(** [marked.lexer], after [marked.use({ gfm: true })]. *)
Variable lexer : jsstring -> Exception + list Token.

Definition report : jsstring :=
  str "Internal error: Please report this to https://github.com/mityu/lspoints-toolkit/issues with the following error messages.".

(** [parseMarkdown] *)
Definition parseMarkdown (markdown : jsstring) : Exception + Renderer :=
  match
    match lexer markdown with
    | inl e => inl e
    | inr tokens => render tokens
    end
  with
  | inr st =>
      inr {| text := JS.dropLastWhile JS.is_empty (text st);
             attrs := attrs st |}
  | inl (NotImplementedError message) =>
      inl (Error (message ++ [10]
                    ++ report
                    ++ [10]
                    ++ markdown))
  | inl e => inl e
  end.

End Render.

(* ===================================================================== *)
(** ** Collaborators of the concrete runs *)
(* ===================================================================== *)

(** An [unescape] for text that holds no entity, which is returned as it
    is, and a tokenizer whose answer is [tokens]. *)
Definition noEntities : jsstring -> jsstring := fun s => s.

Definition lexerOf (tokens : list Token) : jsstring -> Exception + list Token :=
  fun _ => inr tokens.

(** [hasAmp s]: an ["&"] occurs in [s]. *)
Definition hasAmp (s : jsstring) : bool := existsb (Z.eqb 38) s.

(** What the proofs know of [unescape]: text without ["&"] holds no entity
    and is returned as it is. *)
Definition keepsPlain (unescape : jsstring -> jsstring) : Prop :=
  forall s, hasAmp s = false -> unescape s = s.

(* ===================================================================== *)
(** ** Notions of the specification *)
(* ===================================================================== *)

(** The tokens held by a token. *)
Definition children (t : Token) : list Token :=
  match t with
  | THeading _ ts | TBlockquote ts | TList _ ts | TListItem _ ts
  | TParagraph ts | TText _ ts | TLink ts _ _ | TStrong ts | TEm ts
  | TDel ts => ts
  | TSpace _ | TCode _ _ | TTable _ | THr | THtml | TDef | TEscape
  | TImage _ _ _ | TCodespan _ | TBr => []
  end.

Section TokenInduction.
Variable P : Token -> Prop.
Hypothesis step : forall t, Forall P (children t) -> P t.

(** Induction on a token, with the property on all the tokens it holds. *)
Fixpoint Token_children_ind (t : Token) : P t :=
  let all :=
    fix all (ts : list Token) : Forall P ts :=
      match ts with
      | [] => Forall_nil P
      | t' :: r => Forall_cons t' (Token_children_ind t') (all r)
      end in
  step t
    match t as t0 return Forall P (children t0) with
    | THeading _ ts | TBlockquote ts | TList _ ts | TListItem _ ts
    | TParagraph ts | TText _ ts | TLink ts _ _ | TStrong ts | TEm ts
    | TDel ts => all ts
    | TSpace _ | TCode _ _ | TTable _ | THr | THtml | TDef | TEscape
    | TImage _ _ _ | TCodespan _ | TBr => Forall_nil P
    end.
End TokenInduction.

(** The buffer after [#appendText]. *)
Definition appended (unescape : jsstring -> jsstring) (t : jsstring)
           (st : Renderer) : Renderer :=
  let '(top, rest) := JS.split_nl (unescape t) in
  match text st with
  | [] => {| text := top :: rest; attrs := attrs st |}
  | _ :: _ =>
      {| text := removelast (text st) ++ (last (text st) [] ++ top) :: rest;
         attrs := attrs st |}
  end.

(** A position and a range moved by [delta]. *)
Definition shiftPosition (p delta : Position) : Position :=
  {| line := line p + line delta; character := character p + character delta |}.

Definition shiftRange (r : Range) (delta : Position) : Range :=
  {| start := shiftPosition (start r) delta;
     end_ := shiftPosition (end_ r) delta |}.

(** The parts of an attribute: its type tag, and the payload that is no
    position. *)
Inductive AttrType :=
| tyFenced | tyTitle | tyHorizontalrule | tyGeneral (type : GeneralType).

Definition attrType (a : TextAttrItem) : AttrType :=
  match a with
  | fenced _ _ => tyFenced
  | title _ _ => tyTitle
  | horizontalrule _ => tyHorizontalrule
  | general ty _ => tyGeneral ty
  end.

Definition attrLang (a : TextAttrItem) : option jsstring :=
  match a with fenced _ lang => Some lang | _ => None end.

Definition attrDepth (a : TextAttrItem) : option Z :=
  match a with title _ depth => Some depth | _ => None end.

Definition attrRange (a : TextAttrItem) : option Range :=
  match a with
  | fenced r _ | title r _ | general _ r => Some r
  | horizontalrule _ => None
  end.

Definition attrLine (a : TextAttrItem) : option Z :=
  match a with horizontalrule l => Some l | _ => None end.

(** An attribute addresses valid, present text of the lines [t]: lines are
    counted from 1, a column is at most the byte length of its line plus
    one, and one more for the end of a range. *)
Definition lineBytes (t : list jsstring) (l : Z) : Z :=
  strBytes (nth (Z.to_nat (l - 1)) t []).

Definition validPosition (t : list jsstring) (slack : Z) (p : Position) : bool :=
  (1 <=? line p) && (line p <=? Z.of_nat (length t))
  && (1 <=? character p) && (character p <=? lineBytes t (line p) + 1 + slack).

Definition attrValid (t : list jsstring) (a : TextAttrItem) : bool :=
  match a with
  | horizontalrule l => (1 <=? l) && (l <=? Z.of_nat (length t))
  | fenced r _ | title r _ | general _ r =>
      validPosition t 0 (start r) && validPosition t 1 (end_ r)
      && (line (start r) <=? line (end_ r))
  end.

(** The value of a string of decimal digits. *)
Definition decimalValue (s : jsstring) : Z :=
  fold_left (fun acc c => 10 * acc + (c - 48)) s 0.

(** The exception of the html, def and escape case. *)
Definition unsupportedTypes : list jsstring :=
  [str "html"; str "def"; str "escape"].

Definition notImplemented (type : jsstring) : Exception :=
  NotImplementedError (str "Not implemented yet: " ++ type).

(** A token tree contains an html, def or escape token. *)
Fixpoint containsUnsupported (t : Token) : bool :=
  match t with
  | THtml | TDef | TEscape => true
  | THeading _ ts | TBlockquote ts | TList _ ts | TListItem _ ts
  | TParagraph ts | TText _ ts | TLink ts _ _ | TStrong ts | TEm ts
  | TDel ts => existsb containsUnsupported ts
  | TSpace _ | TCode _ _ | TTable _ | THr | TImage _ _ _ | TCodespan _
  | TBr => false
  end.

(** The renderer comes to an html, def or escape token of [t]: one that is
    not below a text token, whose tokens are not rendered. *)
Fixpoint unsupported (t : Token) : bool :=
  match t with
  | THtml | TDef | TEscape => true
  | THeading _ ts | TBlockquote ts | TList _ ts | TListItem _ ts
  | TParagraph ts | TLink ts _ _ | TStrong ts | TEm ts
  | TDel ts => existsb unsupported ts
  | TText _ _ | TSpace _ | TCode _ _ | TTable _ | THr | TImage _ _ _
  | TCodespan _ | TBr => false
  end.

(** The first result of [f] on the elements of a list, in their order. *)
Definition firstSome {A B} (f : A -> option B) : list A -> option B :=
  fix go (l : list A) : option B :=
    match l with
    | [] => None
    | x :: r =>
        match f x with
        | Some y => Some y
        | None => go r
        end
    end.

(** The type of the first html, def or escape token the renderer comes to
    in [t], going through the rendered children in their order; the tokens
    of a text token are not rendered. *)
Fixpoint reached (t : Token) : option jsstring :=
  match t with
  | THtml => Some (str "html")
  | TDef => Some (str "def")
  | TEscape => Some (str "escape")
  | THeading _ ts | TBlockquote ts | TList _ ts | TListItem _ ts
  | TParagraph ts | TLink ts _ _ | TStrong ts | TEm ts
  | TDel ts => firstSome reached ts
  | TText _ _ | TSpace _ | TCode _ _ | TTable _ | THr | TImage _ _ _
  | TCodespan _ | TBr => None
  end.

(** The blockquote case in the words of the specification: the children
    rendered by a fresh renderer, the trailing blank lines cut, every line
    that is left prefixed, and the attributes moved by the line count of
    the parent and by the two columns of the prefix. *)
Definition blockquoteSpec (unescape : jsstring -> jsstring)
           (tokens : list Token) (parent : Renderer) : Exception + Renderer :=
  match render unescape tokens with
  | inl e => inl e
  | inr sub =>
      let kept := JS.dropLastWhile JS.is_blank (text sub) in
      let delta := {| line := Z.of_nat (length (text parent)); character := 2 |} in
      inr {| text := text parent ++ map (fun v => str "> " ++ v) kept ++ [[]];
             attrs := attrs parent
                        ++ map (fun a => match a with
                                         | horizontalrule l =>
                                             horizontalrule (l + line delta)
                                         | fenced r lang =>
                                             fenced (shiftRange r delta) lang
                                         | title r depth =>
                                             title (shiftRange r delta) depth
                                         | general ty r =>
                                             general ty (shiftRange r delta)
                                         end)
                               (attrs sub) |}
  end.

(** The lines [t'] keep the lines [t]: all but the last as they are, and
    the last one as the beginning of a line. *)
Definition extends (t t' : list jsstring) : Prop :=
  match t with
  | [] => True
  | _ :: _ =>
      exists x more, t' = removelast t ++ (last t [] ++ x) :: more
  end.

(** The lines of one list item, pushed after the sub-render [sub]. *)
Definition itemLines (ordered : bool) (items : list Token) (item : Token)
           (idx : nat) (sub : Renderer) : list jsstring :=
  (itemLabel ordered items idx ++ itemCheckbox items item ++ str " "
     ++ match text sub with [] => str "undefined" | h :: _ => h end)
    :: map (fun v => JS.repeat 32 (indentSize ordered items) ++ v)
           (List.tl (text sub)).

(** The step of the list item case on one child. *)
Definition renderChild (unescape : jsstring -> jsstring) (chTok : Token)
  : M unit :=
  match chTok with
  | TList _ _ =>
      sub <- subRender (render unescape [chTok]) ;;
      len <- gets (fun st => length (text st)) ;;
      pushText (text sub) ;;
      pushAttrs (map (fun attr =>
                        transformPosition attr
                          {| line := Z.of_nat len; character := 0 |})
                     (attrs sub))
  | TText text _ =>
      appendText unescape (JS.strip_after_nl false text) ;; ret tt
  | _ => renderOne unescape chTok
  end.

(** A run returns. *)
Definition returning {A} (r : Exception + A) : Prop :=
  exists a, r = inr a.

(** A run ends in the exception of the unsupported token of type [type]
    when there is one, and returns when there is none. *)
Definition verdict {A} (o : option jsstring) (r : Exception + A) : Prop :=
  match o with
  | Some type => r = inl (notImplemented type)
  | None => returning r
  end.

(** A method keeps the lines of the buffer it is run on. *)
Definition keeps {A} (c : M A) : Prop :=
  forall st a st', c st = inr (a, st') -> extends (text st) (text st').

(** The outcome of a token: it fails with the exception of the first
    unsupported token the renderer comes to in it, and returns when it
    comes to none. *)
Definition outcome (unescape : jsstring -> jsstring) (tok : Token) : Prop :=
  forall st, verdict (reached tok) (renderOne unescape tok st).

(** The lines of a list: those of its items, one after the other, [subs]
    being the sub-renders of the items [l], numbered from [from]. *)
Definition listLines (ordered : bool) (items : list Token) (from : nat)
           (l : list Token) (subs : list Renderer) : list jsstring :=
  concat (map (fun '(idx, (item, sub)) => itemLines ordered items item idx sub)
              (combine (seq from (length l)) (combine l subs))).

(** The marker of a heading. *)
Definition marker (depth : nat) : jsstring := JS.repeat 35 depth ++ str " ".

(** No text that a token gives to [#appendText] holds an ["&"].  The tokens
    of a text token are not rendered and may hold any text. *)
Fixpoint entityFree (t : Token) : bool :=
  let plain (s : jsstring) := negb (hasAmp s) in
  let plainOpt (o : option jsstring) :=
    match o with Some s => plain s | None => true end in
  match t with
  | TSpace raw | TTable raw => plain raw
  | TCode text _ | TText text _ | TCodespan text => plain text
  | THeading _ ts | TBlockquote ts | TList _ ts | TListItem _ ts
  | TParagraph ts | TStrong ts | TEm ts | TDel ts => forallb entityFree ts
  | TImage text href ttl => plain text && plain href && plainOpt ttl
  | TLink ts href ttl => forallb entityFree ts && plain href && plainOpt ttl
  | THr | THtml | TDef | TEscape | TBr => true
  end.

(** Two methods that do the same on every buffer. *)
Definition sameRun {A} (c1 c2 : M A) : Prop := forall st, c1 st = c2 st.

(* ===================================================================== *)
(** ** More notions on the rendered buffer *)
(* ===================================================================== *)

(** [lines.join(sep)] *)
Fixpoint join (sep : jsstring) (lines : list jsstring) : jsstring :=
  match lines with
  | [] => []
  | x :: r =>
      match r with
      | [] => x
      | _ :: _ => x ++ sep ++ join sep r
      end
  end.

(** A position is at or before another one, in reading order. *)
Definition posLe (p q : Position) : Prop :=
  line p < line q \/ (line p = line q /\ character p <= character q).

(** The range of an attribute runs forward from a line that is not
    negative and a column that is at least 1; the line of a rule is not
    negative. *)
Definition attrOrdered (a : TextAttrItem) : Prop :=
  match a with
  | horizontalrule l => 0 <= l
  | fenced r _ | title r _ | general _ r =>
      posLe (start r) (end_ r)
      /\ 0 <= line (start r) /\ 1 <= character (start r)
  end.

(** A method keeps the attributes of the buffer it is run on, in front of
    those it adds. *)
Definition adds {A} (c : M A) : Prop :=
  forall st a st', c st = inr (a, st') ->
    exists more, attrs st' = attrs st ++ more.

(** A method leaves the attributes as they are. *)
Definition silent {A} (c : M A) : Prop :=
  forall st a st', c st = inr (a, st') -> attrs st' = attrs st.

(** A method adds attributes in order only. *)
Definition orderly {A} (c : M A) : Prop :=
  forall st a st', c st = inr (a, st') ->
    Forall attrOrdered (attrs st) -> Forall attrOrdered (attrs st').

(** Tokens of running text: text, space, line break, table and paragraphs
    of them. *)
Fixpoint proseOnly (t : Token) : bool :=
  match t with
  | TText _ _ | TSpace _ | TBr | TTable _ => true
  | TParagraph ts => forallb proseOnly ts
  | _ => false
  end.

(** A range runs forward from a line that is not negative and a column
    that is at least 1. *)
Definition goodRange (r : Range) : Prop :=
  posLe (start r) (end_ r) /\ 0 <= line (start r) /\ 1 <= character (start r).

(* ===================================================================== *)
(** ** Markup text (markup_text.ts) *)
(* ===================================================================== *)

(** [a === b] on strings. *)
Fixpoint eqb_jsstring (a b : jsstring) : bool :=
  match a, b with
  | [], [] => true
  | x :: a', y :: b' => (x =? y) && eqb_jsstring a' b'
  | _, _ => false
  end.

(** [s.split(/\n/)] as an array. *)
Definition splitLines (s : jsstring) : list jsstring :=
  fst (JS.split_nl s) :: snd (JS.split_nl s).

(** [s.split(/\r?\n/)]: a carriage return right before a line feed goes
    with it. *)
Fixpoint split_crnl (s : jsstring) : jsstring * list jsstring :=
  match s with
  | [] => ([], [])
  | c :: r =>
      let '(top, rest) := split_crnl r in
      if c =? 10 then ([], top :: rest)
      else if (c =? 13) && (match r with d :: _ => d =? 10 | [] => false end)
      then (top, rest)
      else (c :: top, rest)
  end.

Definition splitCrLines (s : jsstring) : list jsstring :=
  fst (split_crnl s) :: snd (split_crnl s).

(** [LSP.MarkedString]: a string, or a language and a value. *)
Inductive MarkedString :=
| MarkedText (s : jsstring)
| MarkedCode (language value : jsstring).

Inductive MarkupKind := kindPlaintext | kindMarkdown.

(** The argument of [getMarkupText]: a string, a marked string that is no
    string, an array of marked strings, or a markup content. *)
Inductive MarkupInput :=
| InString (s : jsstring)
| InMarkedCode (language value : jsstring)
| InMarkedArray (contents : list MarkedString)
| InMarkupContent (kind : MarkupKind) (value : jsstring).

Definition sep : jsstring := str "- - -".

(** The lines [markedStringToMarkdown] collects before it cuts the end. *)
Definition markedLines (v : MarkedString) : list jsstring :=
  match v with
  | MarkedText s => splitLines s
  | MarkedCode language value =>
      [str "```" ++ language] ++ splitLines value ++ [str "```"; sep]
  end.

(** [markedStringToMarkdown] *)
Definition markedStringToMarkdown (contents : list MarkedString)
  : list jsstring :=
  JS.dropLastWhile (fun v => eqb_jsstring v sep || JS.is_blank v)
    (flat_map markedLines contents).

(** [normalizeMarkupText] *)
Definition normalizeMarkupText (contents : MarkupInput)
  : MarkupKind * list jsstring :=
  match contents with
  | InString s => (kindPlaintext, splitCrLines s)
  | InMarkedCode language value =>
      (kindMarkdown, markedStringToMarkdown [MarkedCode language value])
  | InMarkedArray l => (kindMarkdown, markedStringToMarkdown l)
  | InMarkupContent kind value => (kind, splitCrLines value)
  end.

(** [getMarkupText] *)
Definition getMarkupText (unescape : jsstring -> jsstring)
           (lexer : jsstring -> Exception + list Token)
           (contents : MarkupInput) : Exception + Renderer :=
  let '(kind, lines) := normalizeMarkupText contents in
  match kind with
  | kindPlaintext => inr {| text := lines; attrs := [] |}
  | kindMarkdown => parseMarkdown unescape lexer (join [10] lines)
  end.

(** A text with every carriage return that is right before a line feed
    taken out. *)
Fixpoint lfOnly (s : jsstring) : jsstring :=
  match s with
  | [] => []
  | c :: r =>
      if (c =? 13) && (match r with d :: _ => d =? 10 | [] => false end)
      then lfOnly r
      else c :: lfOnly r
  end.

(* ===================================================================== *)
(** ** Ranges for Vim (toVimRanges, to_vim_positions.ts) *)
(* ===================================================================== *)

(** What a call to the host may throw, and the error of reading a field of
    [undefined]. *)
Inductive Failure :=
| HostFailure (message : jsstring)
| TypeError.

(** [getInclusiveRange] *)
Definition getInclusiveRange (src : Range) : Range :=
  let isZeroWidth :=
    (line (start src) =? line (end_ src))
    && (character (start src) =? character (end_ src)) in
  let e :=
    if character (end_ src) =? 0
    then {| line := line (end_ src) - 1; character := -1 |}
    else {| line := line (end_ src);
            character := character (end_ src) - 1 |} in
  if isZeroWidth then {| start := e; end_ := e |}
  else {| start := start src; end_ := e |}.

(** [chunk(array, 2)] of @std/collections. *)
Fixpoint chunk2 {A} (l : list A) : list (list A) :=
  match l with
  | [] => []
  | a :: r =>
      match r with
      | [] => [[a]]
      | b :: r' => [a; b] :: chunk2 r'
      end
  end.

(** [array.map(f)] for an [f] that may throw. *)
Fixpoint mapThrowing {A B E} (f : A -> E + B) (l : list A) : E + list B :=
  match l with
  | [] => inr []
  | x :: r =>
      match f x with
      | inl e => inl e
      | inr y =>
          match mapThrowing f r with
          | inl e => inl e
          | inr ys => inr (y :: ys)
          end
      end
  end.

Section ToVim.

(** The converter of the host, called by [denops.call] with the positions
    as pairs and checked by [ensure]. *)
Variable call : list (Z * Z) -> Failure + list (Z * Z).

(** [toVimPositions] *)
Definition toVimPositions (positions : list Position)
  : Failure + list Position :=
  match positions with
  | [] => inr []
  | _ :: _ =>
      match call (map (fun p => (line p, character p)) positions) with
      | inl e => inl e
      | inr converted =>
          inr (map (fun p => {| line := fst p; character := snd p |}) converted)
      end
  end.

(** [toVimRanges] *)
Definition toVimRanges (ranges : list Range) : Failure + list Range :=
  let positions :=
    flat_map (fun r => let g := getInclusiveRange r in [start g; end_ g])
             ranges in
  match toVimPositions positions with
  | inl e => inl e
  | inr converted =>
      mapThrowing
        (fun r =>
           match r with
           | a :: b :: _ =>
               inr {| start := a;
                      end_ := {| line := line b;
                                 character := character b + 1 |} |}
           | _ => inl TypeError
           end)
        (chunk2 converted)
  end.

End ToVim.

(** The range of Vim for one range, for a host that converts position by
    position: the inclusive range converted, and its end made exclusive
    again. *)
Definition convertRange (c : Z * Z -> Z * Z) (r : Range) : Range :=
  let conv p :=
    {| line := fst (c (line p, character p));
       character := snd (c (line p, character p)) |} in
  {| start := conv (start (getInclusiveRange r));
     end_ := {| line := line (conv (end_ (getInclusiveRange r)));
                character := character (conv (end_ (getInclusiveRange r))) + 1 |} |}.

(* ===================================================================== *)
(** ** Highlights for Neovim (textprop.ts) *)
(* ===================================================================== *)

(** The integers from [lo] to [hi - 1]: the values of the counter of
    [for (let line = lo; line < hi; line++)]. *)
Definition countUp (lo hi : Z) : list Z :=
  map (fun i => lo + Z.of_nat i) (seq 0 (Z.to_nat (hi - lo))).

(** The calls [addHighlight(denops, line, start_col, end_col)] that
    [addNvimHighlights] makes for one highlight. *)
Definition nvimHighlightCalls (highlight : Range) : list (Z * Z * Z) :=
  if line (start highlight) =? line (end_ highlight)
  then [(line (start highlight) - 1, character (start highlight) - 1,
         character (end_ highlight) - 1)]
  else
    [(line (start highlight) - 1, character (start highlight) - 1, -1)]
      ++ map (fun l => (l - 1, 0, -1))
             (countUp (line (start highlight) + 1) (line (end_ highlight)))
      ++ [(line (end_ highlight) - 1, 0, character (end_ highlight) - 1)].

(** [addNvimHighlights]: the calls of the batch, in their order. *)
Definition addNvimHighlights (highlights : list Range) : list (Z * Z * Z) :=
  flat_map nvimHighlightCalls highlights.

(* ===================================================================== *)
(** ** The preview popup *)
(* ===================================================================== *)

(** [OpenOptions.border] *)
Inductive Border :=
| borderSingle | borderDouble | borderRounded | borderSolid
| borderCustom (topleft top topright right botright bottom botleft left
                : jsstring).

(** The result of [toVimBorder]. *)
Inductive VimBorder :=
| vimBorder (border : list Z) (borderchars : list jsstring)
| vimPadding (padding : list Z).

(** Truthiness of a string. *)
Definition nonEmpty (s : jsstring) : bool := negb (JS.is_empty s).

(** [toVimBorder] *)
Definition toVimBorder (border : Border) : VimBorder :=
  match border with
  | borderSingle =>
      vimBorder [] [[0x2500]; [0x2502]; [0x2500]; [0x2502];
                    [0x250C]; [0x2510]; [0x2518]; [0x2514]]
  | borderDouble =>
      vimBorder [] [[0x2550]; [0x2551]; [0x2550]; [0x2551];
                    [0x2554]; [0x2557]; [0x255D]; [0x255A]]
  | borderRounded =>
      vimBorder [] [[0x2500]; [0x2502]; [0x2500]; [0x2502];
                    [0x256D]; [0x256E]; [0x256F]; [0x2570]]
  | borderSolid => vimPadding [1; 1; 1; 1]
  | borderCustom lt t rt r rb b lb l =>
      vimBorder [if nonEmpty t then 1 else 0; if nonEmpty r then 1 else 0;
                 if nonEmpty b then 1 else 0; if nonEmpty l then 1 else 0]
                [t; r; b; l; lt; rt; rb; lb]
  end.

(** The result of [toNvimBorder]: the name of a style, or the characters. *)
Inductive NvimBorder :=
| nvimStyle (name : jsstring)
| nvimChars (chars : list jsstring).

(** [toNvimBorder] *)
Definition toNvimBorder (border : Border) : NvimBorder :=
  match border with
  | borderSingle => nvimStyle (str "single")
  | borderDouble => nvimStyle (str "double")
  | borderRounded => nvimStyle (str "rounded")
  | borderSolid => nvimStyle (str "solid")
  | borderCustom lt t rt r rb b lb l => nvimChars [lt; t; rt; r; rb; b; lb; l]
  end.

(** [Number.MAX_SAFE_INTEGER], 2^53 - 1. *)
Definition maxSafeInteger : Z := 9007199254740991.

(** [n.toString()] for a number that is an integer.  Up to
    [maxSafeInteger] on both sides a number is the integer it stands for
    and its string is the decimal digits of that integer.  Beyond, the
    digits are those of the shortest decimal that reads back as the number
    and, from 10^21 on, the string has an exponent: these numbers are
    outside the model, which gives [None] for them. *)
Definition toStringZ (n : Z) : option jsstring :=
  if Z.abs n <=? maxSafeInteger
  then Some (if n <? 0 then str "-" ++ JS.toString (Z.to_nat (- n))
             else JS.toString (Z.to_nat n))
  else None.

(** [numberToString] of [openVimPopup]. *)
Definition numberToString (n : Z) : option jsstring :=
  option_map (fun s => (if n >=? 0 then str "+" else []) ++ s) (toStringZ n).

(* ===================================================================== *)
(** ** Messages (echo.ts) *)
(* ===================================================================== *)

(** [EchoOptions]; a field that is left out is [None]. *)
Record EchoOptions := mkEchoOptions {
  record : option bool;
  highlight : option jsstring;
  prefix : option jsstring
}.

(** [string | string[]] *)
Inductive Message :=
| oneString (s : jsstring)
| manyLines (lines : list jsstring).

(** [options?.field], and the truthiness of the fields. *)
Definition optField {A} (options : option EchoOptions)
           (field : EchoOptions -> option A) : option A :=
  match options with
  | None => None
  | Some o => field o
  end.

Definition truthyString (o : option jsstring) : bool :=
  match o with Some (_ :: _) => true | _ => false end.

(** [echo]: the [cmds] and the [msgs] it gives to
    [denops.cmd("call execute(l:cmds, '')", { cmds, msgs })]. *)
Definition echo (message : Message) (options : option EchoOptions)
  : list jsstring * list jsstring :=
  let prefix :=
    match optField options prefix with
    | Some ((_ :: _) as p) => p
    | _ => str "[lspoints] "
    end in
  let msgs :=
    match message with
    | oneString s => splitLines s
    | manyLines l => l
    end in
  let msgs :=
    if (0 <? length prefix)%nat then map (fun v => prefix ++ v) msgs else msgs in
  let echocmd :=
    match optField options record with
    | Some true => str "echomsg"
    | _ => str "echo"
    end in
  let hl := optField options highlight in
  let cmds :=
    (match hl with
     | Some ((_ :: _) as h) => [str "echohl " ++ h]
     | _ => []
     end)
      ++ [str "for l:msg in l:msgs"; echocmd ++ str " l:msg"; str "endfor"]
      ++ (match hl with
          | Some (_ :: _) => [str "echohl None"]
          | _ => []
          end) in
  (cmds, msgs).
(* ===================================================================== *)
(** ** Facts on strings *)
(* ===================================================================== *)

Module JSFacts.
Import JS.

(** Induction on a string that may step over a surrogate pair. *)
Lemma pair_ind (P : list Z -> Prop) :
  P [] ->
  (forall c r, P r -> (forall d r', r = d :: r' -> P r') -> P (c :: r)) ->
  forall s, P s.
Proof.
  intros Hnil Hcons s.
  assert (H : P s /\ (forall d r', s = d :: r' -> P r')).
  { induction s as [|c r [IH1 IH2]].
    - split; [exact Hnil | discriminate].
    - split.
      + apply Hcons; assumption.
      + intros d r' E. injection E as _ <-. exact IH1. }
  exact (proj1 H).
Qed.

Lemma utf8_length cp :
  (1 <= length (utf8 cp) <= 4)%nat
  /\ (0x80 <= cp -> (2 <= length (utf8 cp))%nat).
Proof.
  unfold utf8.
  destruct (cp <? 0x80) eqn:E1; [apply Z.ltb_lt in E1; simpl; lia|].
  destruct (cp <? 0x800); [simpl; lia|].
  destruct (cp <? 0x10000); simpl; lia.
Qed.

Lemma utf8_pair_length c d :
  is_high c = true -> is_low d = true ->
  length (utf8 (0x10000 + (c - 0xD800) * 0x400 + (d - 0xDC00))) = 4%nat.
Proof.
  unfold is_high, is_low, utf8. intros Hc Hd.
  apply andb_true_iff in Hc as [Hc1 Hc2]. apply andb_true_iff in Hd as [Hd1 Hd2].
  apply Z.leb_le in Hc1, Hc2, Hd1, Hd2.
  repeat match goal with
         | |- context [?a <? ?b] =>
             destruct (Z.ltb_spec a b); [lia|]
         end.
  reflexivity.
Qed.

Lemma is_high_ge c : is_high c = true -> 0x80 <= c.
Proof.
  unfold is_high. intros H. apply andb_true_iff in H as [H _].
  apply Z.leb_le in H. lia.
Qed.

(** A string has at most as many code points as code units. *)
Lemma codePoints_le_length s : (codePoints s <= length s)%nat.
Proof.
  induction s as [|c r IH r'] using pair_ind; simpl; [lia|].
  destruct (is_high c); [|lia].
  destruct r as [|d r0]; [lia|].
  destruct (is_low d); [|lia].
  specialize (r' d r0 eq_refl). simpl. lia.
Qed.

(** The encoding has at least one byte for each code unit. *)
Lemma encode_ge_length s : (length s <= length (encode s))%nat.
Proof.
  induction s as [|c r IH IH'] using pair_ind; cbn [encode length]; [lia|].
  destruct (is_high c) eqn:Hc.
  - destruct r as [|d r0]; [cbn; lia|].
    destruct (is_low d) eqn:Hd.
    + rewrite length_app, utf8_pair_length by assumption.
      specialize (IH' d r0 eq_refl). cbn [length]. lia.
    + rewrite length_app. cbn [length] in *.
      pose proof (utf8_length 0xFFFD). lia.
  - destruct (is_low c); rewrite length_app;
      pose proof (utf8_length c); pose proof (utf8_length 0xFFFD); lia.
Qed.

(** ... and more bytes than code units when a unit is outside ASCII. *)
Lemma encode_gt_length s :
  Exists (fun c => 0x80 <= c) s -> (length s < length (encode s))%nat.
Proof.
  induction s as [|c r IH IH'] using pair_ind; intros Hex.
  { inversion Hex. }
  cbn [encode length]. destruct (is_high c) eqn:Hc.
  - destruct r as [|d r0]; [cbn; lia|].
    destruct (is_low d) eqn:Hd.
    + rewrite length_app, utf8_pair_length by assumption.
      pose proof (encode_ge_length r0). cbn [length]. lia.
    + rewrite length_app. pose proof (encode_ge_length (d :: r0)).
      pose proof (proj2 (utf8_length 0xFFFD)).
      cbn [length] in *. lia.
  - pose proof (encode_ge_length r) as Hr.
    destruct (is_low c) eqn:Hl; rewrite length_app.
    + pose proof (proj2 (utf8_length 0xFFFD)). lia.
    + inversion Hex as [? ? Hc0|? ? Hr0]; subst.
      * pose proof (proj2 (utf8_length c) Hc0). lia.
      * specialize (IH Hr0). pose proof (utf8_length c). lia.
Qed.

Lemma ascii_unit c :
  c < 0x80 -> is_high c = false /\ is_low c = false /\ utf8 c = [c].
Proof.
  intros Hc. unfold is_high, is_low, utf8.
  destruct (Z.leb_spec 0xD800 c); [lia|].
  destruct (Z.leb_spec 0xDC00 c); [lia|].
  destruct (Z.ltb_spec c 0x80); [|lia].
  repeat split.
Qed.

(** ASCII text is its own encoding. *)
Lemma encode_ascii s :
  Forall (fun c => c < 0x80) s -> encode s = s.
Proof.
  induction 1 as [|c r Hc _ IH]; [reflexivity|].
  cbn [encode].
  destruct (ascii_unit c Hc) as (-> & -> & ->).
  cbn [app]. now rewrite IH.
Qed.

Lemma strBytes_ascii s :
  Forall (fun c => c < 0x80) s -> strBytes s = Z.of_nat (length s).
Proof. intros H. unfold strBytes. now rewrite encode_ascii. Qed.

End JSFacts.

(** Decimal digits, [padStart] and [dropLastWhile]. *)
Module ArrayFacts.
Import JS.

Lemma digits_fuel : forall fuel n acc,
  (n < fuel)%nat -> digits fuel n acc = digits (S n) n acc.
Proof.
  induction fuel as [fuel IH] using lt_wf_ind. intros n acc Hn.
  destruct fuel as [|fuel]; [lia|].
  cbn [digits].
  destruct (n / 10)%nat as [|q] eqn:Eq; [reflexivity|].
  assert (Hq : (S q < n)%nat).
  { rewrite <- Eq. apply Nat.div_lt; [|lia].
    destruct n; [discriminate Eq | lia]. }
  rewrite (IH fuel) by lia.
  rewrite (IH n) by lia. reflexivity.
Qed.

Lemma digits_acc : forall fuel n acc,
  digits fuel n acc = digits fuel n [] ++ acc.
Proof.
  induction fuel as [|fuel IH]; intros n acc; [reflexivity|].
  cbn [digits].
  destruct (n / 10)%nat as [|q]; [reflexivity|].
  rewrite IH, (IH (S q) [_]), <- app_assoc. reflexivity.
Qed.

(** The recursion of [toString] on the decimal expansion. *)
Lemma toString_step n :
  toString n =
    if (n <? 10)%nat then [48 + Z.of_nat n]
    else toString (n / 10) ++ [48 + Z.of_nat (n mod 10)].
Proof.
  unfold toString at 1. cbn [digits].
  destruct (Nat.ltb_spec n 10) as [Hlt|Hge].
  - rewrite Nat.div_small, Nat.mod_small by assumption. reflexivity.
  - destruct (n / 10)%nat as [|q] eqn:Eq.
    + apply Nat.div_small_iff in Eq; lia.
    + assert (n / 10 < n)%nat by (apply Nat.div_lt; lia).
      rewrite digits_fuel by lia.
      rewrite digits_acc. reflexivity.
Qed.

Lemma toString_length_pos n : (1 <= length (toString n))%nat.
Proof.
  rewrite toString_step. destruct (n <? 10)%nat; [cbn [length]; lia|].
  rewrite length_app. cbn [length]. lia.
Qed.

(** A larger number has no fewer digits. *)
Lemma toString_length_mono : forall m n,
  (n <= m)%nat -> (length (toString n) <= length (toString m))%nat.
Proof.
  induction m as [m IH] using lt_wf_ind. intros n Hle.
  rewrite (toString_step n), (toString_step m).
  destruct (Nat.ltb_spec n 10) as [Hn|Hn];
    destruct (Nat.ltb_spec m 10) as [Hm|Hm]; try lia.
  - reflexivity.
  - rewrite length_app. cbn [length]. lia.
  - rewrite !length_app. cbn [length].
    assert (Hdiv : (n / 10 <= m / 10)%nat) by (apply Nat.Div0.div_le_mono; lia).
    assert (Hlt : (m / 10 < m)%nat) by (apply Nat.div_lt; lia).
    specialize (IH (m / 10)%nat Hlt (n / 10)%nat Hdiv). lia.
Qed.

(** The digits of [toString n] are decimal digits ... *)
Lemma toString_decimal : forall n,
  Forall (fun c => 48 <= c <= 57) (toString n).
Proof.
  induction n as [n IH] using lt_wf_ind.
  rewrite toString_step.
  destruct (Nat.ltb_spec n 10) as [Hn|Hn].
  - constructor; [lia | constructor].
  - apply Forall_app. split.
    + apply IH. apply Nat.div_lt; lia.
    + constructor; [|constructor].
      pose proof (Nat.mod_upper_bound n 10). lia.
Qed.

(** ... whose value is [n] ... *)
Lemma toString_value : forall n, decimalValue (toString n) = Z.of_nat n.
Proof.
  induction n as [n IH] using lt_wf_ind.
  rewrite toString_step.
  destruct (Nat.ltb_spec n 10) as [Hn|Hn].
  - unfold decimalValue. cbn [fold_left]. lia.
  - unfold decimalValue in *. rewrite fold_left_app. cbn [fold_left].
    rewrite IH by (apply Nat.div_lt; lia).
    rewrite (Nat.div_mod_eq n 10) at 3.
    rewrite Nat2Z.inj_add, Nat2Z.inj_mul. lia.
Qed.

(** ... and there are as many as the decimal expansion of [n] needs. *)
Lemma toString_length_bounds : forall n,
  (n < 10 ^ length (toString n))%nat
  /\ (length (toString n) = 1 \/ 10 ^ (length (toString n) - 1) <= n)%nat.
Proof.
  induction n as [n IH] using lt_wf_ind.
  rewrite toString_step.
  destruct (Nat.ltb_spec n 10) as [Hn|Hn].
  - simpl. lia.
  - rewrite length_app. cbn [length].
    destruct (IH (n / 10)%nat) as [Hup Hlow]; [apply Nat.div_lt; lia|].
    pose proof (toString_length_pos (n / 10)) as Hpos.
    pose proof (Nat.div_mod_eq n 10) as Hdm.
    pose proof (Nat.mod_upper_bound n 10 ltac:(lia)) as Hmod.
    set (k := length (toString (n / 10))) in *.
    replace (k + 1)%nat with (S k) by lia.
    replace (S k - 1)%nat with k by lia.
    rewrite Nat.pow_succ_r'. split; [lia|].
    right. destruct Hlow as [Hk|Hlow].
    + rewrite Hk. simpl. lia.
    + replace k with (S (k - 1)) by lia.
      rewrite Nat.pow_succ_r'. lia.
Qed.

Lemma length_repeat c n : length (repeat c n) = n.
Proof. apply List.repeat_length. Qed.

Lemma padStart_length s n :
  length (padStart s n) = Nat.max n (length s).
Proof. unfold padStart. rewrite length_app, length_repeat. lia. Qed.

End ArrayFacts.


Module TrimFacts.
Import JS.

(** [dropLastWhile] cuts a suffix on which the predicate holds ... *)
Lemma dropLastWhile_suffix {A} (p : A -> bool) (l : list A) :
  exists dropped,
    l = dropLastWhile p l ++ dropped /\ forallb p dropped = true.
Proof.
  induction l as [|x r [dropped [Hr Hp]]]; [exists []; split; reflexivity|].
  cbn [dropLastWhile].
  destruct (dropLastWhile p r) as [|y r'] eqn:E.
  - destruct (p x) eqn:Hx.
    + exists (x :: dropped). cbn in *. rewrite Hx, Hp, Hr. split; reflexivity.
    + exists dropped. cbn in *. rewrite Hr at 1. split; [reflexivity | assumption].
  - exists dropped. split; [|assumption].
    cbn. rewrite Hr at 1. reflexivity.
Qed.

(** ... and the longest one: the predicate fails on the last element kept. *)
Lemma dropLastWhile_last {A} (p : A -> bool) (l : list A) (d : A) :
  dropLastWhile p l <> [] -> p (last (dropLastWhile p l) d) = false.
Proof.
  induction l as [|x r IH]; [intros H; now contradiction H|].
  cbn [dropLastWhile].
  destruct (dropLastWhile p r) as [|y r'] eqn:E.
  - destruct (p x) eqn:Hx; [intros H; now contradiction H|].
    intros _. exact Hx.
  - intros _. change (last (x :: y :: r') d) with (last (y :: r') d).
    apply IH. discriminate.
Qed.


End TrimFacts.


(* ===================================================================== *)
(** ** Running the methods *)
(* ===================================================================== *)

Lemma noEntities_keepsPlain : keepsPlain noEntities.
Proof. intros s _. reflexivity. Qed.

Lemma bind_inr {A B} (c : M A) (k : A -> M B) st a st' :
  c st = inr (a, st') -> bind c k st = k a st'.
Proof. unfold bind. now intros ->. Qed.

Lemma bind_inl {A B} (c : M A) (k : A -> M B) st e :
  c st = inl e -> bind c k st = inl e.
Proof. unfold bind. now intros ->. Qed.

Lemma bind_inv {A B} (c : M A) (k : A -> M B) st b st2 :
  bind c k st = inr (b, st2) ->
  exists a st1, c st = inr (a, st1) /\ k a st1 = inr (b, st2).
Proof.
  unfold bind. destruct (c st) as [e|[a st1]]; [discriminate|].
  intros H. now exists a, st1.
Qed.

Section RenderFacts.
Variable unescape : jsstring -> jsstring.

(** [#appendText] returns the range from the position before the text to
    the end of the buffer after it. *)
Lemma appendText_eq t st :
  appendText unescape t st =
    inr ({| start := match text st with
                     | [] => {| line := 1; character := 1 |}
                     | _ :: _ => getEofPosition false st
                     end;
            end_ := getEofPosition false (appended unescape t st) |},
         appended unescape t st).
Proof.
  unfold appendText, appended.
  destruct (JS.split_nl (unescape t)) as [top rest].
  destruct (text st); reflexivity.
Qed.

Lemma appended_attrs t st : attrs (appended unescape t st) = attrs st.
Proof.
  unfold appended. destruct (JS.split_nl (unescape t)).
  destruct (text st); reflexivity.
Qed.

(** The loop of [forEach] stops at the first exception. *)
Lemma forEach_cons {A} (f : A -> M unit) x r st :
  forEach f (x :: r) st =
    match f x st with
    | inl e => inl e
    | inr (_, st') => forEach f r st'
    end.
Proof. reflexivity. Qed.

Lemma forEachIdx_cons {A} (g : A -> nat -> M unit) idx x r st :
  forEachIdx g idx (x :: r) st =
    match g x idx st with
    | inl e => inl e
    | inr (_, st') => forEachIdx g (S idx) r st'
    end.
Proof. reflexivity. Qed.

Lemma renderList_eq tokens st :
  renderList unescape tokens st =
    match forEach (renderOne unescape) tokens st with
    | inl e => inl e
    | inr (_, st') =>
        inr ({| start := getEofPosition false st;
                end_ := getEofPosition false st' |}, st')
    end.
Proof.
  unfold renderList, renderListWith, bind, gets, ret.
  destruct (forEach (renderOne unescape) tokens st) as [e|[[] st']];
    reflexivity.
Qed.

Lemma render_eq tokens :
  render unescape tokens =
    match forEach (renderOne unescape) tokens newRenderer with
    | inl e => inl e
    | inr (_, st') => inr st'
    end.
Proof.
  unfold render, renderWith.
  change (renderListWith (renderOne unescape)) with (renderList unescape).
  rewrite renderList_eq.
  destruct (forEach (renderOne unescape) tokens newRenderer)
    as [e|[[] st']]; reflexivity.
Qed.

(** A sub-render of one token is that token rendered by a fresh instance. *)
Lemma render_one tok :
  render unescape [tok] =
    match renderOne unescape tok newRenderer with
    | inl e => inl e
    | inr (_, st') => inr st'
    end.
Proof.
  rewrite render_eq, forEach_cons.
  destruct (renderOne unescape tok newRenderer) as [e|[[] st']]; reflexivity.
Qed.

(** The cases of [#renderOne]. *)
Lemma renderOne_heading depth tokens :
  renderOne unescape (THeading depth tokens) =
    (r1 <- appendText unescape (JS.repeat 35 depth ++ str " ") ;;
     r2 <- renderList unescape tokens ;;
     pushText [[]] ;;
     pushAttrs [title {| start := start r1; end_ := end_ r2 |}
                      (Z.of_nat depth)]).
Proof. reflexivity. Qed.

Lemma renderOne_paragraph tokens :
  renderOne unescape (TParagraph tokens) =
    (renderList unescape tokens ;; pushText [[]]).
Proof. reflexivity. Qed.

Lemma renderOne_emphasis tok ty tokens :
  (tok, ty) = (TStrong tokens, bold) \/ (tok, ty) = (TDel tokens, strike)
  \/ (tok, ty) = (TEm tokens, italic) ->
  renderOne unescape tok =
    (range <- renderList unescape tokens ;; pushAttrs [general ty range]).
Proof. intros [E|[E|E]]; injection E as -> ->; reflexivity. Qed.

Lemma renderOne_link tokens href ttl :
  renderOne unescape (TLink tokens href ttl) =
    (appendText unescape (str "[") ;;
     range <- renderList unescape tokens ;;
     pushAttrs [general link range] ;;
     appendText unescape (str "](") ;;
     range <- appendText unescape href ;;
     pushAttrs [general url range] ;;
     match ttl with
     | Some ((_ :: _) as t) =>
         appendText unescape (str " ") ;;
         range <- appendText unescape t ;;
         pushAttrs [title range 0]
     | _ => ret tt
     end ;;
     appendText unescape (str ")") ;; ret tt).
Proof. reflexivity. Qed.

Lemma renderOne_blockquote tokens :
  renderOne unescape (TBlockquote tokens) =
    (sub <- subRender (render unescape tokens) ;;
     len <- gets (fun st => length (text st)) ;;
     pushText (map (fun v => str "> " ++ v)
                   (JS.dropLastWhile JS.is_blank (text sub)) ++ [[]]) ;;
     pushAttrs (map (fun attr =>
                       transformPosition attr
                         {| line := Z.of_nat len; character := 2 |})
                    (attrs sub))).
Proof. reflexivity. Qed.

Lemma renderOne_list ordered items :
  renderOne unescape (TList ordered items) =
    forEachIdx
      (fun item idx =>
         sub <- subRender (render unescape [item]) ;;
         mergeItem ordered items item idx sub)
      O items.
Proof. reflexivity. Qed.

Lemma renderOne_list_item checked tokens :
  renderOne unescape (TListItem checked tokens) =
    forEach (renderChild unescape) tokens.
Proof. reflexivity. Qed.

End RenderFacts.

(* ===================================================================== *)
(** ** Which renders fail *)
(* ===================================================================== *)

Lemma firstSome_one {A B} (f : A -> option B) x : firstSome f [x] = f x.
Proof. cbn. now destruct (f x). Qed.

(** The renderer comes to an unsupported token exactly when there is a
    first one. *)
Lemma unsupported_reached : forall tok,
  unsupported tok = match reached tok with Some _ => true | None => false end.
Proof.
  induction tok as [tok IH] using Token_children_ind.
  assert (Hall : forall ts,
             Forall (fun t => unsupported t
                              = match reached t with
                                | Some _ => true
                                | None => false
                                end) ts ->
             existsb unsupported ts
             = match firstSome reached ts with Some _ => true | None => false end).
  { induction 1 as [|t r Ht _ IHr]; [reflexivity|].
    cbn [existsb firstSome]. rewrite Ht.
    destruct (reached t); [reflexivity | exact IHr]. }
  destruct tok; cbn [children] in IH; cbn [unsupported reached];
    auto.
Qed.

Lemma existsb_unsupported tokens :
  existsb unsupported tokens
  = match firstSome reached tokens with Some _ => true | None => false end.
Proof.
  induction tokens as [|t r IH]; [reflexivity|].
  cbn [existsb firstSome]. rewrite unsupported_reached.
  destruct (reached t); [reflexivity | exact IH].
Qed.

(** The first unsupported token is an html, a def or an escape token. *)
Lemma reached_type : forall tok type,
  reached tok = Some type -> In type unsupportedTypes.
Proof.
  induction tok as [tok IH] using Token_children_ind. intros type.
  assert (Hall : forall ts,
             Forall (fun t => forall ty, reached t = Some ty ->
                                         In ty unsupportedTypes) ts ->
             firstSome reached ts = Some type -> In type unsupportedTypes).
  { induction 1 as [|t r Ht _ IHr]; [discriminate|].
    cbn [firstSome]. destruct (reached t) as [ty|] eqn:E; [|exact IHr].
    intros H. injection H as <-. now apply Ht. }
  destruct tok; cbn [children] in IH; cbn [reached];
    try discriminate; try (now apply Hall);
    intros H; injection H as <-; cbn; tauto.
Qed.

Lemma firstSome_reached_type tokens type :
  firstSome reached tokens = Some type -> In type unsupportedTypes.
Proof.
  induction tokens as [|t r IH]; [discriminate|].
  cbn [firstSome]. destruct (reached t) as [ty|] eqn:E; [|exact IH].
  intros H. injection H as <-. now apply (reached_type t).
Qed.

Section Outcome.
Variable unescape : jsstring -> jsstring.

Lemma forEach_outcome {A} (f : A -> M unit) (bad : A -> option jsstring) l :
  Forall (fun x => forall st, verdict (bad x) (f x st)) l ->
  forall st, verdict (firstSome bad l) (forEach f l st).
Proof.
  induction 1 as [|x r Hx _ IH]; intros st.
  - cbn. now exists (tt, st).
  - rewrite forEach_cons. cbn [firstSome]. specialize (Hx st).
    destruct (bad x); cbn [verdict] in *.
    + now rewrite Hx.
    + destruct Hx as ([[] st'] & ->). apply IH.
Qed.

Lemma forEachIdx_outcome {A} (g : A -> nat -> M unit)
      (bad : A -> option jsstring) l :
  Forall (fun x => forall idx st, verdict (bad x) (g x idx st)) l ->
  forall idx st, verdict (firstSome bad l) (forEachIdx g idx l st).
Proof.
  induction 1 as [|x r Hx _ IH]; intros idx st.
  - cbn. now exists (tt, st).
  - rewrite forEachIdx_cons. cbn [firstSome]. specialize (Hx idx st).
    destruct (bad x); cbn [verdict] in *.
    + now rewrite Hx.
    + destruct Hx as ([[] st'] & ->). apply IH.
Qed.

Lemma renderList_outcome tokens :
  Forall (outcome unescape) tokens ->
  forall st,
    verdict (firstSome reached tokens) (renderList unescape tokens st).
Proof.
  intros H st. rewrite renderList_eq.
  pose proof (forEach_outcome (renderOne unescape) reached tokens H st) as Ho.
  destruct (firstSome reached tokens); cbn [verdict] in *.
  - now rewrite Ho.
  - destruct Ho as ([[] st'] & ->). eexists. reflexivity.
Qed.

Lemma render_outcome tokens :
  Forall (outcome unescape) tokens ->
  verdict (firstSome reached tokens) (render unescape tokens).
Proof.
  intros H. rewrite render_eq.
  pose proof (forEach_outcome (renderOne unescape) reached tokens H
                newRenderer) as Ho.
  destruct (firstSome reached tokens); cbn [verdict] in *.
  - now rewrite Ho.
  - destruct Ho as ([[] st'] & ->). eexists. reflexivity.
Qed.

(** A bind whose first step fails as [o] tells and whose next steps return. *)
Lemma bind_outcome {A B} (c : M A) (k : A -> M B) (o : option jsstring) st :
  verdict o (c st) ->
  (forall a st', returning (k a st')) ->
  verdict o (bind c k st).
Proof.
  intros Hc Hk. destruct o; cbn [verdict] in *.
  - now apply bind_inl.
  - destruct Hc as ([a st'] & E). rewrite (bind_inr _ _ _ _ _ E). apply Hk.
Qed.

Lemma returning_bind {A B} (c : M A) (k : A -> M B) st :
  returning (c st) -> (forall a st', returning (k a st')) ->
  returning (bind c k st).
Proof.
  intros ([a st'] & E) Hk. rewrite (bind_inr _ _ _ _ _ E). apply Hk.
Qed.

Lemma returning_appendText t st : returning (appendText unescape t st).
Proof. rewrite appendText_eq. eexists. reflexivity. Qed.

Lemma returning_modify f st : returning (modify f st).
Proof. eexists. reflexivity. Qed.

Lemma returning_gets {A} (f : Renderer -> A) st : returning (gets f st).
Proof. eexists. reflexivity. Qed.

Lemma returning_ret {A} (a : A) st : returning (ret a st).
Proof. eexists. reflexivity. Qed.

Lemma returning_mergeItem ordered items item idx sub st :
  returning (mergeItem ordered items item idx sub st).
Proof. eexists. reflexivity. Qed.

Ltac returns :=
  repeat first
    [ apply returning_appendText
    | apply returning_modify
    | apply returning_gets
    | apply returning_ret
    | apply returning_mergeItem
    | match goal with
      | |- returning (match ?x with _ => _ end _) => destruct x
      end
    | apply returning_bind; [|intros ? ?] ].

Lemma subRender_outcome tokens st :
  Forall (outcome unescape) tokens ->
  verdict (firstSome reached tokens) (subRender (render unescape tokens) st).
Proof.
  intros H. pose proof (render_outcome tokens H) as Ho. unfold subRender.
  destruct (firstSome reached tokens); cbn [verdict] in *.
  - now rewrite Ho.
  - destruct Ho as (sub & ->). eexists. reflexivity.
Qed.

(** A token fails with the exception of the first unsupported token the
    renderer comes to in it, and returns when it comes to none. *)
Lemma renderOne_outcome : forall tok, outcome unescape tok.
Proof.
  induction tok as [tok IH] using Token_children_ind.
  intros st.
  destruct tok; cbn [children] in IH; cbn [reached];
    try (cbn [verdict]; cbn; unfold pushText, pushAttrs; returns; fail);
    try reflexivity.
  - (* heading *)
    rewrite renderOne_heading.
    rewrite (bind_inr _ _ _ _ _ (appendText_eq unescape _ st)).
    apply bind_outcome; [now apply renderList_outcome|].
    intros; unfold pushText, pushAttrs; returns.
  - (* blockquote *)
    rewrite renderOne_blockquote.
    apply bind_outcome; [now apply subRender_outcome|].
    intros; unfold pushText, pushAttrs; returns.
  - (* list *)
    rewrite renderOne_list.
    apply forEachIdx_outcome.
    eapply Forall_impl; [|exact IH].
    intros item Hitem idx st0.
    apply bind_outcome; [|intros; apply returning_mergeItem].
    pose proof (subRender_outcome [item] st0 (Forall_cons _ Hitem (Forall_nil _)))
      as Ho.
    now rewrite firstSome_one in Ho.
  - (* list item *)
    rewrite renderOne_list_item.
    apply forEach_outcome.
    eapply Forall_impl; [|exact IH].
    intros ch Hch st0.
    assert (Hsub : verdict (reached ch) (subRender (render unescape [ch]) st0)).
    { pose proof (subRender_outcome [ch] st0
                    (Forall_cons _ Hch (Forall_nil _))) as Ho.
      now rewrite firstSome_one in Ho. }
    destruct ch; try apply Hch.
    + unfold renderChild. apply bind_outcome; [exact Hsub|].
      intros; unfold pushText, pushAttrs; returns.
    + unfold renderChild. cbn [reached verdict]. returns.
  - (* paragraph *)
    rewrite renderOne_paragraph.
    apply bind_outcome; [now apply renderList_outcome|].
    intros; unfold pushText; returns.
  - (* link *)
    rewrite renderOne_link.
    rewrite (bind_inr _ _ _ _ _ (appendText_eq unescape _ st)).
    apply bind_outcome; [now apply renderList_outcome|].
    intros; unfold pushAttrs; returns.
  - (* strong *)
    rewrite (renderOne_emphasis unescape _ bold tokens) by tauto.
    apply bind_outcome; [now apply renderList_outcome|].
    intros; unfold pushAttrs; returns.
  - (* em *)
    rewrite (renderOne_emphasis unescape _ italic tokens) by tauto.
    apply bind_outcome; [now apply renderList_outcome|].
    intros; unfold pushAttrs; returns.
  - (* del *)
    rewrite (renderOne_emphasis unescape _ strike tokens) by tauto.
    apply bind_outcome; [now apply renderList_outcome|].
    intros; unfold pushAttrs; returns.
Qed.

(** The outcome of a render, by the first unsupported token the renderer
    comes to. *)
Lemma render_verdict tokens :
  verdict (firstSome reached tokens) (render unescape tokens).
Proof.
  apply render_outcome. apply Forall_forall. intros tok _.
  apply renderOne_outcome.
Qed.

End Outcome.

(* ===================================================================== *)
(** ** Text without entities *)
(* ===================================================================== *)

Lemma hasAmp_chomp s : hasAmp s = false -> hasAmp (JS.chomp s) = false.
Proof.
  unfold hasAmp. induction s as [|c r IH]; [easy|].
  cbn [existsb]. intros H. apply orb_false_iff in H as [Hc Hr].
  cbn [JS.chomp]. destruct r as [|d r'].
  - destruct (c =? 10); [reflexivity|]. cbn [existsb]. now rewrite Hc.
  - cbn [existsb]. rewrite Hc. cbn [orb]. now apply IH.
Qed.

Lemma hasAmp_strip_after_nl s : forall skipping,
  hasAmp s = false -> hasAmp (JS.strip_after_nl skipping s) = false.
Proof.
  unfold hasAmp. induction s as [|c r IH]; intros skipping; [easy|].
  cbn [existsb JS.strip_after_nl]. intros H.
  apply orb_false_iff in H as [Hc Hr].
  destruct (skipping && JS.is_space c); [now apply IH|].
  cbn [existsb]. rewrite Hc. cbn [orb]. now apply IH.
Qed.

Lemma hasAmp_marker depth : hasAmp (JS.repeat 35 depth ++ str " ") = false.
Proof.
  unfold hasAmp, JS.repeat. rewrite existsb_app.
  induction depth as [|d IH]; [reflexivity | exact IH].
Qed.

Section Plain.
Variable unescape : jsstring -> jsstring.
Hypothesis plain : keepsPlain unescape.

Lemma sameRun_appendText t :
  hasAmp t = false -> sameRun (appendText unescape t) (appendText noEntities t).
Proof.
  intros Ht st. unfold appendText, noEntities. now rewrite (plain _ Ht).
Qed.

Lemma sameRun_refl {A} (c : M A) : sameRun c c.
Proof. intros st. reflexivity. Qed.

Lemma sameRun_bind {A B} (c1 c2 : M A) (k1 k2 : A -> M B) :
  sameRun c1 c2 -> (forall a, sameRun (k1 a) (k2 a)) ->
  sameRun (bind c1 k1) (bind c2 k2).
Proof.
  intros Hc Hk st. unfold bind. rewrite Hc.
  destruct (c2 st) as [e|[a st']]; [reflexivity | apply Hk].
Qed.

Lemma sameRun_forEach {A} (f1 f2 : A -> M unit) l :
  Forall (fun x => sameRun (f1 x) (f2 x)) l ->
  sameRun (forEach f1 l) (forEach f2 l).
Proof.
  induction 1 as [|x r Hx _ IH]; [apply sameRun_refl|].
  cbn [forEach]. apply sameRun_bind; [assumption | intros _; assumption].
Qed.

Lemma sameRun_forEachIdx {A} (g1 g2 : A -> nat -> M unit) l :
  Forall (fun x => forall idx, sameRun (g1 x idx) (g2 x idx)) l ->
  forall idx, sameRun (forEachIdx g1 idx l) (forEachIdx g2 idx l).
Proof.
  induction 1 as [|x r Hx _ IH]; intros idx; [apply sameRun_refl|].
  cbn [forEachIdx]. apply sameRun_bind; [apply Hx | intros _; apply IH].
Qed.

Lemma sameRun_renderList tokens :
  Forall (fun tok => sameRun (renderOne unescape tok) (renderOne noEntities tok))
         tokens ->
  sameRun (renderList unescape tokens) (renderList noEntities tokens).
Proof.
  intros H. unfold renderList, renderListWith.
  apply sameRun_bind; [apply sameRun_refl | intros start].
  apply sameRun_bind; [now apply sameRun_forEach | intros _].
  apply sameRun_refl.
Qed.

Lemma render_same tokens :
  Forall (fun tok => sameRun (renderOne unescape tok) (renderOne noEntities tok))
         tokens ->
  render unescape tokens = render noEntities tokens.
Proof.
  intros H. unfold render, renderWith.
  change (renderListWith (renderOne unescape)) with (renderList unescape).
  change (renderListWith (renderOne noEntities)) with (renderList noEntities).
  now rewrite (sameRun_renderList tokens H newRenderer).
Qed.

Lemma sameRun_subRender tokens :
  Forall (fun tok => sameRun (renderOne unescape tok) (renderOne noEntities tok))
         tokens ->
  sameRun (subRender (render unescape tokens))
          (subRender (render noEntities tokens)).
Proof. intros H st. now rewrite (render_same tokens H). Qed.

Lemma Forall_entityFree (Q : Token -> Prop) tokens :
  Forall (fun t => entityFree t = true -> Q t) tokens ->
  forallb entityFree tokens = true -> Forall Q tokens.
Proof.
  induction 1 as [|t r Ht _ IH]; [constructor|].
  cbn [forallb]. intros H. apply andb_true_iff in H as [H1 H2].
  constructor; auto.
Qed.

Ltac same_run :=
  repeat first
    [ apply sameRun_refl
    | apply sameRun_appendText;
      first [ assumption | now apply hasAmp_chomp
            | now apply hasAmp_strip_after_nl | apply hasAmp_marker
            | now apply negb_true_iff | reflexivity ]
    | now apply sameRun_renderList
    | now apply sameRun_subRender
    | match goal with
      | |- sameRun (match ?x with _ => _ end) _ => destruct x
      end
    | apply sameRun_bind; [|intros ?] ].

Ltac split_plain H :=
  repeat match type of H with
         | (_ && _) = true =>
             let H1 := fresh "Hp" in
             apply andb_true_iff in H as [H H1]
         end;
  repeat match goal with
         | Hp : negb (hasAmp _) = true |- _ => apply negb_true_iff in Hp
         end.

(** An [unescape] that keeps text without ["&"] renders a token whose
    text holds none as [noEntities] does. *)
Lemma renderOne_entityFree : forall tok,
  entityFree tok = true ->
  sameRun (renderOne unescape tok) (renderOne noEntities tok).
Proof.
  induction tok as [tok IH] using Token_children_ind.
  intros Hfree.
  destruct tok; cbn [children] in IH; cbn [entityFree] in Hfree;
    try (apply negb_true_iff in Hfree; cbn [renderOne]; same_run; fail);
    try apply sameRun_refl.
  - (* heading *)
    pose proof (Forall_entityFree _ _ IH Hfree).
    rewrite !renderOne_heading. same_run.
  - (* blockquote *)
    pose proof (Forall_entityFree _ _ IH Hfree).
    rewrite !renderOne_blockquote. same_run.
  - (* list *)
    pose proof (Forall_entityFree _ _ IH Hfree) as Hall.
    rewrite !renderOne_list. apply sameRun_forEachIdx.
    eapply Forall_impl; [|exact Hall]. intros item Hitem idx.
    apply sameRun_bind; [|intros ?; apply sameRun_refl].
    apply sameRun_subRender. now constructor.
  - (* list item *)
    rewrite !renderOne_list_item. apply sameRun_forEach.
    assert (Hall : Forall (fun t => entityFree t = true /\
                             (entityFree t = true ->
                              sameRun (renderOne unescape t)
                                      (renderOne noEntities t))) tokens).
    { clear -IH Hfree. induction IH as [|t r Ht _ IHr]; [constructor|].
      cbn [forallb] in Hfree. apply andb_true_iff in Hfree as [H1 H2].
      constructor; auto. }
    eapply Forall_impl; [|exact Hall]. intros ch [Hch1 Hch2].
    specialize (Hch2 Hch1).
    destruct ch; try exact Hch2; unfold renderChild.
    + apply sameRun_bind; [|intros ?; apply sameRun_refl].
      apply sameRun_subRender. now constructor.
    + cbn [entityFree] in Hch1. apply negb_true_iff in Hch1. same_run.
  - (* paragraph *)
    pose proof (Forall_entityFree _ _ IH Hfree).
    rewrite !renderOne_paragraph. same_run.
  - (* image *)
    split_plain Hfree. cbn [renderOne].
    destruct title0 as [[|c t]|]; same_run.
  - (* link *)
    split_plain Hfree.
    pose proof (Forall_entityFree _ _ IH Hfree).
    rewrite !renderOne_link.
    destruct title0 as [[|c t]|]; same_run.
  - (* strong *)
    pose proof (Forall_entityFree _ _ IH Hfree).
    rewrite !(renderOne_emphasis _ _ bold tokens) by tauto. same_run.
  - (* em *)
    pose proof (Forall_entityFree _ _ IH Hfree).
    rewrite !(renderOne_emphasis _ _ italic tokens) by tauto. same_run.
  - (* del *)
    pose proof (Forall_entityFree _ _ IH Hfree).
    rewrite !(renderOne_emphasis _ _ strike tokens) by tauto. same_run.
Qed.

Lemma render_entityFree tokens :
  forallb entityFree tokens = true ->
  render unescape tokens = render noEntities tokens.
Proof.
  intros H. apply render_same. apply Forall_forall. intros tok Hin.
  apply renderOne_entityFree.
  rewrite forallb_forall in H. now apply H.
Qed.

End Plain.

(* ===================================================================== *)
(** ** The lines of the buffer are kept *)
(* ===================================================================== *)

Lemma extends_refl t : extends t t.
Proof.
  destruct t as [|x r]; [exact I|].
  exists [], []. rewrite app_nil_r. apply app_removelast_last. discriminate.
Qed.

Lemma extends_push t lines : extends t (t ++ lines).
Proof.
  destruct t as [|x r]; [exact I|].
  exists [], lines. rewrite app_nil_r.
  rewrite (app_removelast_last [] (l := x :: r)) at 1 by discriminate.
  now rewrite <- app_assoc.
Qed.

Lemma extends_inv t t' :
  t <> [] -> extends t t' ->
  exists x more, t' = removelast t ++ (last t [] ++ x) :: more.
Proof. destruct t; [intros H; now contradiction H | intros _ H; exact H]. Qed.

Lemma last_app_cons {A} (l : list A) x more d :
  last (l ++ x :: more) d = last (x :: more) d.
Proof.
  induction l as [|y l IH]; [reflexivity|].
  cbn [app]. destruct (l ++ x :: more) eqn:E.
  - now destruct l.
  - cbn [last]. exact IH.
Qed.

Lemma extends_trans a b c : extends a b -> extends b c -> extends a c.
Proof.
  destruct a as [|x r]; [intros; exact I|].
  intros (y & more & ->) Hbc.
  set (a := x :: r) in *.
  apply extends_inv in Hbc; [|destruct (removelast a); discriminate].
  destruct Hbc as (y' & more2 & ->).
  rewrite removelast_app, last_app_cons by discriminate.
  destruct more as [|m more'].
  - exists (y ++ y'), more2. cbn [removelast last].
    now rewrite app_nil_r, app_assoc.
  - exists y, (removelast (m :: more') ++ (last (m :: more') [] ++ y') :: more2).
    change (removelast ((last a [] ++ y) :: m :: more'))
      with ((last a [] ++ y) :: removelast (m :: more')).
    change (last ((last a [] ++ y) :: m :: more') [])
      with (last (m :: more') []).
    now rewrite <- app_assoc.
Qed.

Section Keeps.
Variable unescape : jsstring -> jsstring.

Lemma keeps_ret {A} (a : A) : keeps (ret a).
Proof. intros st a' st' E. injection E as _ <-. apply extends_refl. Qed.

Lemma keeps_gets {A} (f : Renderer -> A) : keeps (gets f).
Proof. intros st a' st' E. injection E as _ <-. apply extends_refl. Qed.

Lemma keeps_throw {A} e : keeps (@throw A e).
Proof. intros st a st' E. discriminate E. Qed.

Lemma keeps_subRender r : keeps (subRender r).
Proof.
  intros st a st' E. unfold subRender in E. destruct r; [discriminate|].
  injection E as _ <-. apply extends_refl.
Qed.

Lemma keeps_pushText lines : keeps (pushText lines).
Proof. intros st a st' E. injection E as _ <-. apply extends_push. Qed.

Lemma keeps_pushAttrs items : keeps (pushAttrs items).
Proof. intros st a st' E. injection E as _ <-. apply extends_refl. Qed.

Lemma keeps_appendText t : keeps (appendText unescape t).
Proof.
  intros st a st' E. rewrite appendText_eq in E. injection E as _ <-.
  unfold appended. destruct (JS.split_nl (unescape t)) as [top rest].
  destruct (text st) as [|x r] eqn:Et; [exact I|].
  cbn [text]. now exists top, rest.
Qed.

Lemma keeps_bind {A B} (c : M A) (k : A -> M B) :
  keeps c -> (forall a, keeps (k a)) -> keeps (bind c k).
Proof.
  intros Hc Hk st b st2 E.
  apply bind_inv in E as (a & st1 & E1 & E2).
  eapply extends_trans; [eapply Hc | eapply Hk]; eassumption.
Qed.

Lemma keeps_forEach {A} (f : A -> M unit) l :
  Forall (fun x => keeps (f x)) l -> keeps (forEach f l).
Proof.
  induction 1 as [|x r Hx _ IH]; [apply keeps_ret|].
  cbn [forEach]. apply keeps_bind; [assumption | intros _; assumption].
Qed.

Lemma keeps_forEachIdx {A} (g : A -> nat -> M unit) l :
  Forall (fun x => forall idx, keeps (g x idx)) l ->
  forall idx, keeps (forEachIdx g idx l).
Proof.
  induction 1 as [|x r Hx _ IH]; intros idx; [apply keeps_ret|].
  cbn [forEachIdx]. apply keeps_bind; [apply Hx | intros _; apply IH].
Qed.

Lemma keeps_mergeItem ordered items item idx sub :
  keeps (mergeItem ordered items item idx sub).
Proof.
  unfold mergeItem.
  repeat (apply keeps_bind; [|intros ?]);
    first [apply keeps_pushText | apply keeps_pushAttrs].
Qed.

Ltac keeping :=
  repeat first
    [ apply keeps_ret | apply keeps_gets | apply keeps_throw
    | apply keeps_subRender | apply keeps_pushText | apply keeps_pushAttrs
    | apply keeps_appendText | apply keeps_mergeItem
    | assumption
    | match goal with
      | |- keeps (match ?x with _ => _ end) => destruct x
      end
    | apply keeps_bind; [|intros ?] ].

Lemma keeps_renderList tokens :
  Forall (fun tok => keeps (renderOne unescape tok)) tokens ->
  keeps (renderList unescape tokens).
Proof.
  intros H. unfold renderList, renderListWith.
  pose proof (keeps_forEach _ _ H). keeping.
Qed.

(** Rendering a token adds to the buffer: the lines before the last one
    stay, and the last one is continued. *)
Lemma renderOne_keeps : forall tok, keeps (renderOne unescape tok).
Proof.
  induction tok as [tok IH] using Token_children_ind.
  destruct tok; cbn [children] in IH;
    try (cbn [renderOne]; keeping; fail).
  - rewrite renderOne_heading.
    pose proof (keeps_renderList _ IH). keeping.
  - rewrite renderOne_list. apply keeps_forEachIdx.
    apply Forall_forall. intros item _ idx. keeping.
  - rewrite renderOne_list_item. apply keeps_forEach.
    eapply Forall_impl; [|exact IH]. intros ch Hch.
    destruct ch; try exact Hch; unfold renderChild; keeping.
  - rewrite renderOne_paragraph.
    pose proof (keeps_renderList _ IH). keeping.
  - rewrite renderOne_link.
    pose proof (keeps_renderList _ IH). keeping.
  - rewrite (renderOne_emphasis unescape _ bold tokens) by tauto.
    pose proof (keeps_renderList _ IH). keeping.
  - rewrite (renderOne_emphasis unescape _ italic tokens) by tauto.
    pose proof (keeps_renderList _ IH). keeping.
  - rewrite (renderOne_emphasis unescape _ strike tokens) by tauto.
    pose proof (keeps_renderList _ IH). keeping.
Qed.

Lemma renderList_keeps tokens : keeps (renderList unescape tokens).
Proof.
  apply keeps_renderList, Forall_forall. intros tok _. apply renderOne_keeps.
Qed.

End Keeps.

(* ===================================================================== *)
(** ** The coordinate shift and the end of the buffer *)
(* ===================================================================== *)

(** C9: [transformPosition] changes positions and nothing else.  For an
    attribute with a range the type tag, the language of [fenced] and the
    depth of [title] stay, and both ends of the range move by exactly
    [(delta.line, delta.character)]; for [horizontalrule] the line moves by
    [delta.line] and [delta.character] is not read. *)
Theorem C9_transformPosition_frame : forall attr delta,
  transformPosition attr delta =
    match attr with
    | horizontalrule l => horizontalrule (l + line delta)
    | fenced r lang => fenced (shiftRange r delta) lang
    | title r depth => title (shiftRange r delta) depth
    | general ty r => general ty (shiftRange r delta)
    end
  /\ attrType (transformPosition attr delta) = attrType attr
  /\ attrLang (transformPosition attr delta) = attrLang attr
  /\ attrDepth (transformPosition attr delta) = attrDepth attr
  /\ attrRange (transformPosition attr delta) =
       option_map (fun r => shiftRange r delta) (attrRange attr)
  /\ attrLine (transformPosition attr delta) =
       option_map (fun l => l + line delta) (attrLine attr)
  /\ (forall l c,
        transformPosition (horizontalrule l) delta =
        transformPosition (horizontalrule l)
          {| line := line delta; character := c |}).
Proof.
  intros attr delta. destruct attr; repeat split.
Qed.

(** C8: on a buffer that is not empty [#getEofPosition] returns the number
    of lines and the UTF-8 byte length of the last line plus one, and one
    more when [exclusive] holds.  The bytes are those of the encoding: when
    the last line holds a code unit outside ASCII the column is beyond its
    number of characters plus one, and beyond its number of UTF-16 code
    units plus one. *)
Theorem C8_getEofPosition_bytes : forall st exclusive,
  text st <> [] ->
  let lastline := last (text st) [] in
  getEofPosition exclusive st =
    {| line := Z.of_nat (length (text st));
       character := Z.of_nat (length (JS.encode lastline)) + 1
                    + (if exclusive then 1 else 0) |}
  /\ Z.of_nat (JS.codePoints lastline) + 1 <= character (getEofPosition exclusive st)
  /\ (Exists (fun c => 0x80 <= c) lastline ->
      Z.of_nat (JS.codePoints lastline) + 1 < character (getEofPosition exclusive st)
      /\ Z.of_nat (length lastline) + 1 < character (getEofPosition exclusive st)).
Proof.
  intros st exclusive Hne lastline.
  assert (E : getEofPosition exclusive st =
              {| line := Z.of_nat (length (text st));
                 character := Z.of_nat (length (JS.encode lastline)) + 1
                              + (if exclusive then 1 else 0) |}).
  { unfold getEofPosition, lastLine, strBytes.
    destruct (text st) as [|x r] eqn:Et; [now contradiction Hne|].
    reflexivity. }
  rewrite E. cbn [character].
  pose proof (JSFacts.codePoints_le_length lastline) as Hcp.
  pose proof (JSFacts.encode_ge_length lastline) as Hge.
  split; [reflexivity|]. split.
  - destruct exclusive; lia.
  - intros Hex. pose proof (JSFacts.encode_gt_length lastline Hex).
    destruct exclusive; lia.
Qed.

Lemma C8_getEofPosition_bytes_witness :
  getEofPosition false {| text := [str "a"; [0x2022]]; attrs := [] |} =
    {| line := 2; character := 4 |}
  /\ JS.codePoints [0x2022] = 1%nat.
Proof.
  split; [|reflexivity].
  exact (proj1 (C8_getEofPosition_bytes
                  {| text := [str "a"; [0x2022]]; attrs := [] |} false
                  ltac:(discriminate))).
Defined.

(* ===================================================================== *)
(** ** The empty input *)
(* ===================================================================== *)

(** C10: an empty token sequence renders to empty output.  When the
    tokenizer returns no token, [parseMarkdown] returns no line and no
    attribute and raises nothing; [#renderList] asks for the end of the
    empty buffer twice and gets line 0, column 1. *)
Theorem C10_empty_input : forall unescape lexer markdown,
  lexer markdown = inr [] ->
  parseMarkdown unescape lexer markdown = inr {| text := []; attrs := [] |}
  /\ render unescape [] = inr newRenderer
  /\ renderList unescape [] newRenderer =
       inr ({| start := {| line := 0; character := 1 |};
               end_ := {| line := 0; character := 1 |} |}, newRenderer).
Proof.
  intros unescape lexer markdown Hlex.
  unfold parseMarkdown. rewrite Hlex. repeat split.
Qed.

Lemma C10_empty_input_witness :
  parseMarkdown noEntities (lexerOf []) [] = inr {| text := []; attrs := [] |}.
Proof.
  exact (proj1 (C10_empty_input noEntities (lexerOf []) [] eq_refl)).
Defined.

(* ===================================================================== *)
(** ** Trailing lines *)
(* ===================================================================== *)




(* ===================================================================== *)
(** ** Lists: labels and checkboxes *)
(* ===================================================================== *)

Lemma str_dot_ascii : Forall (fun c => c < 0x80) (str ".").
Proof. repeat constructor. Qed.

Lemma repeat_ascii c n : c < 0x80 -> Forall (fun c => c < 0x80) (JS.repeat c n).
Proof.
  intros Hc. unfold JS.repeat. apply Forall_forall. intros x Hx.
  apply repeat_spec in Hx. now subst.
Qed.

Lemma toString_ascii n : Forall (fun c => c < 0x80) (JS.toString n).
Proof.
  eapply Forall_impl; [|apply ArrayFacts.toString_decimal].
  cbn. intros; lia.
Qed.

(** The lines a list item adds to the buffer. *)
Lemma mergeItem_eq ordered items item idx sub st :
  mergeItem ordered items item idx sub st =
    inr (tt,
         {| text := text st ++ itemLines ordered items item idx sub;
            attrs := attrs st
                       ++ map (fun attr =>
                                 transformPosition attr
                                   {| line := 0;
                                      character :=
                                        Z.of_nat (indentSize ordered items) |})
                              (attrs sub) |}).
Proof.
  unfold mergeItem, itemLines, bind, pushText, pushAttrs, modify.
  cbn [text attrs]. now rewrite <- app_assoc.
Qed.

(** The lines of a rendered list are the lines of its items, each item
    with its label in front. *)
Lemma forEachIdx_list_lines unescape ordered items : forall l from st st',
  forEachIdx
    (fun item idx =>
       sub <- subRender (render unescape [item]) ;;
       mergeItem ordered items item idx sub)
    from l st = inr (tt, st') ->
  exists subs,
    Forall2 (fun item sub => render unescape [item] = inr sub) l subs
    /\ text st' = text st ++ listLines ordered items from l subs.
Proof.
  induction l as [|item r IH]; intros from st st' E.
  - injection E as <-. exists []. split; [constructor|].
    unfold listLines. cbn. now rewrite app_nil_r.
  - cbn [forEachIdx] in E.
    apply bind_inv in E as ([] & st1 & E1 & E2).
    apply bind_inv in E1 as (sub & st0 & Esub & Emerge).
    unfold subRender in Esub.
    destruct (render unescape [item]) as [e|sub0] eqn:Er; [discriminate|].
    injection Esub as <- <-.
    rewrite mergeItem_eq in Emerge. injection Emerge as <-.
    destruct (IH _ _ _ E2) as (subs & Hsubs & Htext).
    exists (sub0 :: subs). split; [now constructor|].
    rewrite Htext. cbn [text]. unfold listLines.
    cbn [length seq combine map concat]. now rewrite <- app_assoc.
Qed.

Lemma renderOne_list_lines unescape ordered items st st' :
  renderOne unescape (TList ordered items) st = inr (tt, st') ->
  exists subs,
    Forall2 (fun item sub => render unescape [item] = inr sub) items subs
    /\ text st' = text st ++ listLines ordered items 0 items subs.
Proof. rewrite renderOne_list. apply forEachIdx_list_lines. Qed.

(** C7: in an ordered list of [N] items the label of every item has the
    same width, the number of decimal digits of [N] plus one: it is the
    number of the item in decimal digits, right-justified by spaces to the
    digits of [N], and then ["."].  The first line of the item begins with
    this label, and the lines of the rendered list are the lines of its
    items in their order. *)
Theorem C7_ordered_label_width : forall unescape items item idx,
  nth_error items idx = Some item ->
  let N := length items in
  let width := length (JS.toString N) in
  let number := JS.toString (idx + 1) in
  let label := itemLabel true items idx in
  (N < 10 ^ width /\ (width = 1 \/ 10 ^ (width - 1) <= N))%nat
  /\ labelSize true items = (width + 1)%nat
  /\ label = JS.repeat 32 (width - length number) ++ number ++ str "."
  /\ decimalValue number = Z.of_nat idx + 1
  /\ Forall (fun c => 48 <= c <= 57) number
  /\ length label = (width + 1)%nat
  /\ strBytes label = Z.of_nat width + 1
  /\ (forall sub,
        exists rest lines,
          itemLines true items item idx sub = (label ++ rest) :: lines)
  /\ (forall st st',
        renderOne unescape (TList true items) st = inr (tt, st') ->
        exists subs,
          Forall2 (fun it sub => render unescape [it] = inr sub) items subs
          /\ text st' = text st ++ listLines true items 0 items subs).
Proof.
  intros unescape items item idx Hnth N width number label.
  assert (Hidx : (idx < N)%nat).
  { apply nth_error_Some. rewrite Hnth. discriminate. }
  assert (Hnum : (length number <= width)%nat).
  { apply ArrayFacts.toString_length_mono. lia. }
  assert (Hlabel : label = JS.repeat 32 (width - length number) ++ number ++ str ".").
  { unfold label, itemLabel, labelSize, JS.padStart. fold N width number.
    replace (width + 1 - 1)%nat with width by lia.
    now rewrite <- app_assoc. }
  assert (Hlen : length label = (width + 1)%nat).
  { rewrite Hlabel, !length_app, ArrayFacts.length_repeat.
    change (length (str ".")) with 1%nat. lia. }
  split; [apply ArrayFacts.toString_length_bounds|].
  split; [reflexivity|].
  split; [exact Hlabel|].
  split; [unfold number; rewrite ArrayFacts.toString_value; lia|].
  split; [apply ArrayFacts.toString_decimal|].
  split; [exact Hlen|].
  split.
  - rewrite JSFacts.strBytes_ascii; [rewrite Hlen; lia|].
    rewrite Hlabel.
    apply Forall_app; split; [apply repeat_ascii; lia|].
    apply Forall_app; split; [apply toString_ascii | apply str_dot_ascii].
  - split.
    + intros sub. unfold itemLines. fold label.
      eexists. eexists. reflexivity.
    + intros st st'. apply renderOne_list_lines.
Qed.

Lemma C7_ordered_label_width_witness :
  itemLabel true (List.repeat (TListItem None []) 10) 0 = str " 1."
  /\ length (itemLabel true (List.repeat (TListItem None []) 10) 0) = 3%nat.
Proof.
  pose proof (C7_ordered_label_width noEntities
                (List.repeat (TListItem None []) 10) (TListItem None []) 0
                eq_refl) as H.
  split.
  - exact (proj1 (proj2 (proj2 H))).
  - exact (proj1 (proj2 (proj2 (proj2 (proj2 (proj2 H)))))).
Defined.

(** The labels of a list of ten items. *)
Example ordered_labels_of_ten :
  map (itemLabel true (List.repeat (TListItem None []) 10)) (seq 0 10) =
    [str " 1."; str " 2."; str " 3."; str " 4."; str " 5."; str " 6.";
     str " 7."; str " 8."; str " 9."; str "10."].
Proof. reflexivity. Qed.

(** The checkbox column has width 4 when an item is checked, and width 0
    when none is: an item that is not checked does not count. *)
Lemma checkboxSize_checked items :
  checkboxSize items =
    if existsb (fun v => truthy (item_checked v)) items then 4%nat else 0%nat.
Proof.
  unfold checkboxSize.
  induction items as [|v r IH]; [reflexivity|].
  cbn [filter existsb]. destruct (truthy (item_checked v)); [reflexivity|].
  exact IH.
Qed.

(** C4, at the failing input: the list of the task item ["[ ] a"], not
    checked, and of the plain item ["b"].  The shared width is 0, the
    checkbox of the first item has width 4 and the padding of the second
    width 0, and the rendered lines are ["1. [ ] a"] and ["2. b"]. *)
Theorem C4_unchecked_item_checkbox_width : forall unescape,
  keepsPlain unescape ->
  let item1 := TListItem (Some false) [TText (str "a") [TText (str "a") []]] in
  let item2 := TListItem None [TText (str "b") [TText (str "b") []]] in
  let items := [item1; item2] in
  checkboxSize items = 0%nat
  /\ itemCheckbox items item1 = str " [ ]"
  /\ strBytes (itemCheckbox items item1) = 4
  /\ itemCheckbox items item2 = []
  /\ render unescape [TList true items] =
       inr {| text := [str "1. [ ] a"; str "2. b"]; attrs := [] |}.
Proof.
  intros unescape Hplain. cbv zeta.
  rewrite (render_entityFree unescape Hplain) by reflexivity.
  repeat split.
Qed.

Lemma C4_unchecked_item_checkbox_width_witness :
  render noEntities
    [TList true
       [TListItem (Some false) [TText (str "a") [TText (str "a") []]];
        TListItem None [TText (str "b") [TText (str "b") []]]]] =
    inr {| text := [str "1. [ ] a"; str "2. b"]; attrs := [] |}.
Proof.
  exact (proj2 (proj2 (proj2 (proj2
           (C4_unchecked_item_checkbox_width noEntities
              noEntities_keepsPlain))))).
Defined.

(* ===================================================================== *)
(** ** Headings *)
(* ===================================================================== *)

Lemma split_nl_one_line s :
  Forall (fun c => c <> 10) s -> JS.split_nl s = (s, []).
Proof.
  induction 1 as [|c r Hc _ IH]; [reflexivity|].
  cbn [JS.split_nl]. rewrite IH.
  destruct (Z.eqb_spec c 10); [contradiction | reflexivity].
Qed.

Lemma marker_plain depth :
  Forall (fun c => c < 0x80) (marker depth)
  /\ Forall (fun c => c <> 10) (marker depth)
  /\ hasAmp (marker depth) = false
  /\ length (marker depth) = (depth + 1)%nat.
Proof.
  unfold marker, JS.repeat. repeat split.
  - apply Forall_app. split; [|repeat constructor].
    apply Forall_forall. intros x Hx. apply repeat_spec in Hx. now subst.
  - apply Forall_app. split; [|repeat constructor; discriminate].
    apply Forall_forall. intros x Hx. apply repeat_spec in Hx. now subst.
  - apply hasAmp_marker.
  - rewrite length_app, repeat_length. reflexivity.
Qed.

(** The encoding of a string continued by ASCII text. *)
Lemma encode_app_ascii s t :
  Forall (fun c => c < 0x80) t -> JS.encode (s ++ t) = JS.encode s ++ t.
Proof.
  intros Ht. induction s as [|c r IH IH'] using JSFacts.pair_ind.
  - now apply JSFacts.encode_ascii.
  - cbn [app JS.encode]. destruct (JS.is_high c).
    + destruct r as [|d r0].
      * cbn [app]. destruct t as [|d t0]; [reflexivity|].
        inversion Ht as [|? ? Hd Ht0]; subst.
        destruct (JSFacts.ascii_unit d Hd) as (_ & -> & _).
        cbn [app] in IH. now rewrite IH.
      * cbn [app]. destruct (JS.is_low d).
        -- rewrite (IH' d r0 eq_refl). now rewrite app_assoc.
        -- cbn [app] in IH. rewrite IH. now rewrite app_assoc.
    + destruct (JS.is_low c); rewrite IH; now rewrite app_assoc.
Qed.

Lemma strBytes_app_ascii s t :
  Forall (fun c => c < 0x80) t ->
  strBytes (s ++ t) = strBytes s + Z.of_nat (length t).
Proof.
  intros Ht. unfold strBytes. rewrite encode_app_ascii by assumption.
  rewrite length_app. lia.
Qed.

(** The end of a buffer that is not empty. *)
Lemma getEofPosition_last st exclusive :
  text st <> [] ->
  getEofPosition exclusive st =
    {| line := Z.of_nat (length (text st));
       character := strBytes (last (text st) []) + 1
                    + (if exclusive then 1 else 0) |}.
Proof.
  intros Hne. unfold getEofPosition, lastLine.
  destruct (text st); [now contradiction Hne | reflexivity].
Qed.

Lemma getEofPosition_snoc l x ats exclusive :
  getEofPosition exclusive {| text := l ++ [x]; attrs := ats |} =
    {| line := Z.of_nat (length l) + 1;
       character := strBytes x + 1 + (if exclusive then 1 else 0) |}.
Proof.
  rewrite getEofPosition_last by (cbn; destruct l; discriminate).
  cbn [text]. rewrite last_last, length_app. cbn [length]. f_equal; lia.
Qed.

(** The buffer after the marker of a heading is appended. *)
Lemma appended_marker unescape depth st :
  keepsPlain unescape ->
  appended unescape (marker depth) st =
    {| text := removelast (text st) ++ [last (text st) [] ++ marker depth];
       attrs := attrs st |}.
Proof.
  intros Hplain. destruct (marker_plain depth) as (_ & Hnl & Hamp & _).
  unfold appended. rewrite (Hplain _ Hamp), (split_nl_one_line _ Hnl).
  destruct (text st); reflexivity.
Qed.

(** C3, as the code has it: the title attribute of a heading of depth [d]
    has depth [d]; its range starts where the marker ["#" * d + " "] is
    appended, at line 1, column 1 on an empty buffer and at the end of the
    buffer otherwise, which is [d + 1] columns before the rendered text of
    the heading, and it ends right after the rendered children.  The marker
    is kept in the output line and the range covers it. *)
Theorem C3_heading_title_range : forall unescape depth tokens st r st2,
  keepsPlain unescape ->
  renderList unescape tokens (appended unescape (marker depth) st)
    = inr (r, st2) ->
  let startPos :=
    match text st with
    | [] => {| line := 1; character := 1 |}
    | _ :: _ => getEofPosition false st
    end in
  renderOne unescape (THeading depth tokens) st =
    inr (tt, {| text := text st2 ++ [[]];
                attrs := attrs st2
                           ++ [title {| start := startPos;
                                        end_ := getEofPosition false st2 |}
                                     (Z.of_nat depth)] |})
  /\ start r = {| line := line startPos;
                  character := character startPos + Z.of_nat depth + 1 |}
  /\ end_ r = getEofPosition false st2
  /\ exists x more,
       text st2 =
         removelast (text st) ++ (last (text st) [] ++ marker depth ++ x) :: more.
Proof.
  intros unescape depth tokens st r st2 Hplain Hlist startPos.
  destruct (marker_plain depth) as (Hascii & _ & _ & Hlen).
  split; [|split; [|split]].
  - rewrite renderOne_heading. fold (marker depth).
    rewrite (bind_inr _ _ _ _ _ (appendText_eq unescape _ st)).
    rewrite (bind_inr _ _ _ _ _ Hlist).
    rewrite renderList_eq in Hlist.
    destruct (forEach _ tokens _) as [e|[[] st2']]; [discriminate|].
    injection Hlist as <- <-. reflexivity.
  - rewrite renderList_eq in Hlist.
    destruct (forEach _ tokens _) as [e|[[] st2']]; [discriminate|].
    injection Hlist as <- _. cbn [start].
    rewrite appended_marker by assumption.
    rewrite getEofPosition_snoc. unfold startPos.
    destruct (text st) as [|x0 r0] eqn:Et.
    + cbn [removelast last app length line character].
      rewrite JSFacts.strBytes_ascii, Hlen by assumption.
      f_equal; lia.
    + rewrite <- Et.
      rewrite (getEofPosition_last st false) by (rewrite Et; discriminate).
      cbn [line character].
      rewrite strBytes_app_ascii, Hlen by assumption.
      assert (Hsplit : length (text st) = S (length (removelast (text st)))).
      { rewrite (app_removelast_last [] (l := text st)) at 1
          by (rewrite Et; discriminate).
        rewrite length_app. cbn [length]. lia. }
      f_equal; lia.
  - rewrite renderList_eq in Hlist.
    destruct (forEach _ tokens _) as [e|[[] st2']]; [discriminate|].
    now injection Hlist as <- <-.
  - pose proof (renderList_keeps unescape tokens _ _ _ Hlist) as Hext.
    rewrite appended_marker in Hext by assumption. cbn [text] in Hext.
    apply extends_inv in Hext;
      [|destruct (removelast (text st)); discriminate].
    destruct Hext as (x & more & ->).
    rewrite removelast_last, last_last. exists x, more.
    now rewrite <- app_assoc.
Qed.

Lemma C3_heading_title_range_witness :
  renderOne noEntities (THeading 1 [TText (str "h1 title1") []]) newRenderer =
    inr (tt, {| text := [str "# h1 title1"; []];
                attrs := [title {| start := {| line := 1; character := 1 |};
                                   end_ := {| line := 1; character := 12 |} |}
                                1] |}).
Proof.
  exact (proj1 (C3_heading_title_range noEntities 1
                  [TText (str "h1 title1") []] newRenderer
                  {| start := {| line := 1; character := 3 |};
                     end_ := {| line := 1; character := 12 |} |}
                  {| text := [str "# h1 title1"]; attrs := [] |}
                  noEntities_keepsPlain eq_refl)).
Defined.

(** C3, as stated, fails: for the heading ["# h1 title1"] the range of
    the title starts at column 1, before the marker, and not at column
    1 + 2 = 3. *)
Lemma C3_counterexample :
  exists r,
    render noEntities [THeading 1 [TText (str "h1 title1") []]] =
      inr {| text := [str "# h1 title1"; []]; attrs := [title r 1] |}
    /\ character (start r) = 1
    /\ character (start r) <> 1 + Z.of_nat (length (marker 1)).
Proof.
  eexists. split; [reflexivity|]. cbn. split; [reflexivity | discriminate].
Qed.

(* ===================================================================== *)
(** ** Blockquotes *)
(* ===================================================================== *)

Lemma quoted_lines_prefixed (lines : list jsstring) :
  Forall (fun l => exists v, l = str "> " ++ v)
         (map (fun v => str "> " ++ v) lines).
Proof.
  apply Forall_forall. intros l Hl. apply in_map_iff in Hl as (v & <- & _).
  now exists v.
Qed.

(** C6: a blockquote is rendered as its children are by a fresh renderer,
    with the trailing blank lines cut, every line that is left prefixed
    with ["> "], and every attribute moved by the number of lines of the
    parent and by 2 columns.  So every quoted line begins with ["> "], and
    a span of the children, an italic one among them, is at its column
    plus 2. *)
Theorem C6_blockquote_shift : forall unescape tokens parent,
  renderOne unescape (TBlockquote tokens) parent =
    match blockquoteSpec unescape tokens parent with
    | inl e => inl e
    | inr st => inr (tt, st)
    end
  /\ forall sub,
       render unescape tokens = inr sub ->
       exists quoted st',
         renderOne unescape (TBlockquote tokens) parent = inr (tt, st')
         /\ text st' = text parent ++ quoted ++ [[]]
         /\ quoted = map (fun v => str "> " ++ v)
                         (JS.dropLastWhile JS.is_blank (text sub))
         /\ Forall (fun l => exists v, l = str "> " ++ v) quoted
         /\ attrs st' =
              attrs parent
                ++ map (fun a =>
                          transformPosition a
                            {| line := Z.of_nat (length (text parent));
                               character := 2 |})
                       (attrs sub)
         /\ forall ty r,
              In (general ty r) (attrs sub) ->
              In (general ty
                    {| start :=
                         {| line := line (start r)
                                    + Z.of_nat (length (text parent));
                            character := character (start r) + 2 |};
                       end_ :=
                         {| line := line (end_ r)
                                    + Z.of_nat (length (text parent));
                            character := character (end_ r) + 2 |} |})
                 (attrs st').
Proof.
  intros unescape tokens parent.
  assert (Eq : renderOne unescape (TBlockquote tokens) parent =
               match blockquoteSpec unescape tokens parent with
               | inl e => inl e
               | inr st => inr (tt, st)
               end).
  { rewrite renderOne_blockquote.
    unfold blockquoteSpec, bind, subRender, gets, pushText, pushAttrs, modify.
    destruct (render unescape tokens) as [e|sub]; [reflexivity|].
    cbn [text attrs]. reflexivity. }
  split; [exact Eq|].
  intros sub Hsub. rewrite Eq. unfold blockquoteSpec. rewrite Hsub.
  eexists. eexists. split; [reflexivity|]. cbn [text attrs].
  split; [reflexivity|]. split; [reflexivity|].
  split; [apply quoted_lines_prefixed|]. split; [reflexivity|].
  intros ty r Hin. apply in_or_app. right.
  apply in_map_iff. exists (general ty r). split; [reflexivity | exact Hin].
Qed.

Lemma C6_blockquote_shift_witness :
  exists quoted st',
    renderOne noEntities
      (TBlockquote [TParagraph [TText (str "an ") []; TEm [TText (str "quoted") []]]])
      {| text := [str "pre"; []]; attrs := [] |} = inr (tt, st')
    /\ text st' = [str "pre"; []] ++ quoted ++ [[]]
    /\ quoted = [str "> an quoted"]
    /\ attrs st' =
         [general italic {| start := {| line := 3; character := 6 |};
                            end_ := {| line := 3; character := 12 |} |}].
Proof.
  destruct (proj2 (C6_blockquote_shift noEntities
                     [TParagraph [TText (str "an ") [];
                                  TEm [TText (str "quoted") []]]]
                     {| text := [str "pre"; []]; attrs := [] |})
                  {| text := [str "an quoted"; []];
                     attrs := [general italic
                                 {| start := {| line := 1; character := 4 |};
                                    end_ := {| line := 1; character := 10 |} |}] |}
                  eq_refl)
    as (quoted & st' & H1 & H2 & H3 & _ & H5 & _).
  exists quoted, st'. repeat split; assumption.
Defined.

(* ===================================================================== *)
(** ** Unsupported tokens *)
(* ===================================================================== *)

(** A token the renderer comes to is a token of the tree. *)
Lemma unsupported_contained : forall tok,
  unsupported tok = true -> containsUnsupported tok = true.
Proof.
  induction tok as [tok IH] using Token_children_ind.
  assert (Hall : forall ts, Forall (fun t => unsupported t = true ->
                                             containsUnsupported t = true) ts ->
                            existsb unsupported ts = true ->
                            existsb containsUnsupported ts = true).
  { induction 1 as [|t r Ht _ IHr]; [easy|]. cbn [existsb].
    rewrite !orb_true_iff. intros [H|H]; [left; auto | right; auto]. }
  destruct tok; cbn [children] in IH; cbn [unsupported containsUnsupported];
    auto; discriminate.
Qed.

(** C5, as the code has it: when the renderer comes to an html, def or
    escape token, one that is not below a text token, the render fails
    with the exception of the first such token it comes to and returns no
    line and no attribute, and [parseMarkdown] raises an error whose
    message is that of the exception, which names the type of that token,
    the request to report the internal error and the Markdown text given.
    When the renderer comes to no such token the render returns. *)
Theorem C5_unsupported_token_fails : forall unescape lexer markdown tokens,
  lexer markdown = inr tokens ->
  (existsb unsupported tokens = true ->
   exists type,
     firstSome reached tokens = Some type
     /\ In type unsupportedTypes
     /\ render unescape tokens = inl (notImplemented type)
     /\ parseMarkdown unescape lexer markdown =
          inl (Error (str "Not implemented yet: " ++ type ++ [10]
                        ++ report ++ [10] ++ markdown)))
  /\ (existsb unsupported tokens = false ->
      firstSome reached tokens = None
      /\ exists st, render unescape tokens = inr st).
Proof.
  intros unescape lexer markdown tokens Hlex.
  pose proof (render_verdict unescape tokens) as Ho.
  pose proof (firstSome_reached_type tokens) as Hty.
  rewrite existsb_unsupported.
  destruct (firstSome reached tokens) as [type|]; cbn [verdict] in Ho.
  - split; [|discriminate]. intros _. exists type.
    split; [reflexivity|]. split; [now apply Hty|]. split; [exact Ho|].
    unfold parseMarkdown. rewrite Hlex, Ho. unfold notImplemented.
    now rewrite <- !app_assoc.
  - split; [discriminate|]. intros _. split; [reflexivity | exact Ho].
Qed.

Lemma C5_unsupported_token_fails_witness :
  render noEntities [TParagraph [TText (str "a ") []; TEscape]; THtml] =
    inl (notImplemented (str "escape"))
  /\ parseMarkdown noEntities
       (lexerOf [TParagraph [TText (str "a ") []; TEscape]; THtml])
       (str "a \*") =
       inl (Error (str "Not implemented yet: escape" ++ [10]
                     ++ report ++ [10] ++ str "a \*")).
Proof.
  destruct (proj1 (C5_unsupported_token_fails noEntities
                     (lexerOf [TParagraph [TText (str "a ") []; TEscape]; THtml])
                     (str "a \*") _ eq_refl) eq_refl)
    as (type & Hfirst & _ & Hr & Hp).
  injection Hfirst as <-. split; [exact Hr | exact Hp].
Defined.

(** C5, as stated, fails: the text of a list item holds an escape token,
    and the list renders, the text of the item being appended as it is. *)
Lemma C5_counterexample :
  let tokens :=
    [TList true
       [TListItem None
          [TText (str "a \* b")
             [TText (str "a ") []; TEscape; TText (str " b") []]]]] in
  existsb containsUnsupported tokens = true
  /\ render noEntities tokens =
       inr {| text := [str "1. a \* b"]; attrs := [] |}
  /\ parseMarkdown noEntities (lexerOf tokens) (str "1. a \* b") =
       inr {| text := [str "1. a \* b"]; attrs := [] |}.
Proof. repeat split. Qed.

(* ===================================================================== *)
(** ** Attributes and the text they address *)
(* ===================================================================== *)

(** C1, at the failing input: the ordered list of the item ["a"] and of
    the item ["# b"].  In the sub-render of the second item the title
    attribute is at line 1, columns 1 to 4, of the line ["# b"] and an empty line;
    the list case moves it by the indent 3 and by no line, so it stays at
    line 1, columns 4 to 7, while the heading is on line 2 of the output.
    Line 1 of the output is ["1. a"], of 4 bytes: the end column 7 is not
    in it. *)
Theorem C1_list_item_attr_out_of_range : forall unescape,
  keepsPlain unescape ->
  let item1 := TListItem None [TText (str "a") [TText (str "a") []]] in
  let item2 := TListItem None [THeading 1 [TText (str "b") []]] in
  let attr := title {| start := {| line := 1; character := 4 |};
                       end_ := {| line := 1; character := 7 |} |} 1 in
  let out := [str "1. a"; str "2. # b"; str "   "] in
  render unescape [item2] =
    inr {| text := [str "# b"; []];
           attrs := [title {| start := {| line := 1; character := 1 |};
                              end_ := {| line := 1; character := 4 |} |} 1] |}
  /\ render unescape [TList true [item1; item2]] =
       inr {| text := out; attrs := [attr] |}
  /\ lineBytes out 1 = 4
  /\ attrValid out attr = false.
Proof.
  intros unescape Hplain. cbv zeta.
  rewrite !(render_entityFree unescape Hplain) by reflexivity.
  repeat split.
Qed.

Lemma C1_list_item_attr_out_of_range_witness :
  render noEntities
    [TList true
       [TListItem None [TText (str "a") [TText (str "a") []]];
        TListItem None [THeading 1 [TText (str "b") []]]]] =
    inr {| text := [str "1. a"; str "2. # b"; str "   "];
           attrs := [title {| start := {| line := 1; character := 4 |};
                              end_ := {| line := 1; character := 7 |} |} 1] |}.
Proof.
  exact (proj1 (proj2 (C1_list_item_attr_out_of_range noEntities
                         noEntities_keepsPlain))).
Defined.

(* ===================================================================== *)
(** ** The runs of the test suite *)
(* ===================================================================== *)

Example test_plain_text :
  parseMarkdown noEntities
    (lexerOf [TParagraph [TText (str "foo") []]; TSpace [10; 10];
              TParagraph [TText (str "bar" ++ [10] ++ str "baz") []]])
    (str "foo" ++ [10; 10] ++ str "bar" ++ [10] ++ str "baz") =
    inr {| text := [str "foo"; []; str "bar"; str "baz"]; attrs := [] |}.
Proof. reflexivity. Qed.

Example test_titles :
  parseMarkdown noEntities
    (lexerOf [THeading 1 [TText (str "h1 title1") []];
              THeading 2 [TText (str "h2 ") []; TEm [TText (str "title2") []]];
              THeading 3 [TText (str "h3 ") [];
                          TStrong [TText (str "title3") []]]])
    [] =
    inr {| text := [str "# h1 title1"; str "## h2 title2"; str "### h3 title3"];
           attrs := [title {| start := {| line := 1; character := 1 |};
                              end_ := {| line := 1; character := 12 |} |} 1;
                     general italic
                       {| start := {| line := 2; character := 7 |};
                          end_ := {| line := 2; character := 13 |} |};
                     title {| start := {| line := 2; character := 1 |};
                              end_ := {| line := 2; character := 13 |} |} 2;
                     general bold
                       {| start := {| line := 3; character := 8 |};
                          end_ := {| line := 3; character := 14 |} |};
                     title {| start := {| line := 3; character := 1 |};
                              end_ := {| line := 3; character := 14 |} |} 3] |}.
Proof. reflexivity. Qed.

Example test_hr_after_fenced :
  parseMarkdown noEntities
    (lexerOf [TCode (str "console.log();") (Some (str "typescript")); THr;
              TParagraph [TText (str "plaintext") []]])
    [] =
    inr {| text := [str "console.log();"; []; str "plaintext"];
           attrs := [fenced {| start := {| line := 1; character := 1 |};
                               end_ := {| line := 1; character := 15 |} |}
                            (str "typescript");
                     horizontalrule 2] |}.
Proof. reflexivity. Qed.

Example test_blockquote :
  parseMarkdown noEntities
    (lexerOf [TParagraph [TText (str "plaintext-pre") []]; TSpace [10; 10];
              TBlockquote
                [TParagraph [TText (str "This is") []];
                 TBlockquote
                   [TParagraph [TText (str "an ") [];
                                TEm [TText (str "quoted") []];
                                TText ([10] ++ str "statement.") []]]];
              TSpace [10; 10];
              TParagraph [TText (str "plaintext-post") []]])
    [] =
    inr {| text := [str "plaintext-pre"; []; []; str "> This is"; str "> ";
                    str "> > an quoted"; str "> > statement."; [];
                    str "plaintext-post"];
           attrs := [general italic
                       {| start := {| line := 6; character := 8 |};
                          end_ := {| line := 6; character := 14 |} |}] |}.
Proof. reflexivity. Qed.

(* ===================================================================== *)
(** ** Positions on an empty buffer *)
(* ===================================================================== *)

(** A span rendered first starts at the end of the empty buffer, line 0. *)
Example em_on_empty_buffer :
  render noEntities [TParagraph [TEm [TText (str "foo") []]]] =
    inr {| text := [str "foo"; []];
           attrs := [general italic
                       {| start := {| line := 0; character := 1 |};
                          end_ := {| line := 1; character := 4 |} |}] |}.
Proof. reflexivity. Qed.

(** A rule rendered first is at line 0 of the one line it pushes. *)
Example hr_on_empty_buffer :
  render noEntities [THr] = inr {| text := [[]]; attrs := [horizontalrule 0] |}.
Proof. reflexivity. Qed.

(* ===================================================================== *)
(** ** Rendering appends: lines and attributes *)
(* ===================================================================== *)

(** X1: rendering a token only adds to a buffer that is not empty: the
    lines before the last one stay as they are, the last one is continued,
    and new lines come after it. *)
Theorem X1_renderOne_appends_lines : forall unescape tok st st',
  renderOne unescape tok st = inr (tt, st') ->
  text st <> [] ->
  exists x more,
    text st' = removelast (text st) ++ (last (text st) [] ++ x) :: more
    /\ length (text st') = (length (text st) + length more)%nat.
Proof.
  intros unescape tok st st' Hrun Hne.
  pose proof (renderOne_keeps unescape tok st tt st' Hrun) as Hext.
  apply extends_inv in Hext; [|assumption].
  destruct Hext as (x & more & E). exists x, more. split; [exact E|].
  assert (Hlen : length (text st) = S (length (removelast (text st)))).
  { rewrite (app_removelast_last [] (l := text st)) at 1 by assumption.
    rewrite length_app. cbn [length]. unfold jsstring in *. lia. }
  rewrite E, length_app. cbn [length]. unfold jsstring in *. lia.
Qed.

Lemma X1_renderOne_appends_lines_witness :
  exists x more,
    [str "ab"; str "cd e"; []] = removelast [str "ab"; str "cd"]
                                   ++ (last [str "ab"; str "cd"] [] ++ x) :: more
    /\ length [str "ab"; str "cd e"; []] = (2 + length more)%nat.
Proof.
  exact (X1_renderOne_appends_lines noEntities
           (TParagraph [TText (str " e") []])
           {| text := [str "ab"; str "cd"]; attrs := [] |}
           {| text := [str "ab"; str "cd e"; []]; attrs := [] |}
           eq_refl ltac:(discriminate)).
Defined.

Section Adds.
Variable unescape : jsstring -> jsstring.

Lemma adds_ret {A} (a : A) : adds (ret a).
Proof. intros st a' st' E. injection E as _ <-. exists []. now rewrite app_nil_r. Qed.

Lemma adds_gets {A} (f : Renderer -> A) : adds (gets f).
Proof. intros st a' st' E. injection E as _ <-. exists []. now rewrite app_nil_r. Qed.

Lemma adds_throw {A} e : adds (@throw A e).
Proof. intros st a st' E. discriminate E. Qed.

Lemma adds_subRender r : adds (subRender r).
Proof.
  intros st a st' E. unfold subRender in E. destruct r; [discriminate|].
  injection E as _ <-. exists []. now rewrite app_nil_r.
Qed.

Lemma adds_pushText lines : adds (pushText lines).
Proof. intros st a st' E. injection E as _ <-. exists []. cbn. now rewrite app_nil_r. Qed.

Lemma adds_pushAttrs items : adds (pushAttrs items).
Proof. intros st a st' E. injection E as _ <-. now exists items. Qed.

Lemma adds_appendText t : adds (appendText unescape t).
Proof.
  intros st a st' E. rewrite appendText_eq in E. injection E as _ <-.
  exists []. now rewrite appended_attrs, app_nil_r.
Qed.

Lemma adds_bind {A B} (c : M A) (k : A -> M B) :
  adds c -> (forall a, adds (k a)) -> adds (bind c k).
Proof.
  intros Hc Hk st b st2 E.
  apply bind_inv in E as (a & st1 & E1 & E2).
  destruct (Hc _ _ _ E1) as (m1 & H1). destruct (Hk _ _ _ _ E2) as (m2 & H2).
  exists (m1 ++ m2). now rewrite H2, H1, app_assoc.
Qed.

Lemma adds_forEach {A} (f : A -> M unit) l :
  Forall (fun x => adds (f x)) l -> adds (forEach f l).
Proof.
  induction 1 as [|x r Hx _ IH]; [apply adds_ret|].
  cbn [forEach]. apply adds_bind; [assumption | intros _; assumption].
Qed.

Lemma adds_forEachIdx {A} (g : A -> nat -> M unit) l :
  Forall (fun x => forall idx, adds (g x idx)) l ->
  forall idx, adds (forEachIdx g idx l).
Proof.
  induction 1 as [|x r Hx _ IH]; intros idx; [apply adds_ret|].
  cbn [forEachIdx]. apply adds_bind; [apply Hx | intros _; apply IH].
Qed.

Ltac adding :=
  repeat first
    [ apply adds_ret | apply adds_gets | apply adds_throw
    | apply adds_subRender | apply adds_pushText | apply adds_pushAttrs
    | apply adds_appendText
    | assumption
    | match goal with
      | |- adds (match ?x with _ => _ end) => destruct x
      end
    | apply adds_bind; [|intros ?] ].

Lemma adds_mergeItem ordered items item idx sub :
  adds (mergeItem ordered items item idx sub).
Proof. unfold mergeItem. adding. Qed.

Lemma adds_renderList tokens :
  Forall (fun tok => adds (renderOne unescape tok)) tokens ->
  adds (renderList unescape tokens).
Proof.
  intros H. unfold renderList, renderListWith.
  pose proof (adds_forEach _ _ H). adding.
Qed.

Lemma renderOne_adds : forall tok, adds (renderOne unescape tok).
Proof.
  induction tok as [tok IH] using Token_children_ind.
  destruct tok; cbn [children] in IH;
    try (cbn [renderOne]; adding; fail).
  - rewrite renderOne_heading.
    pose proof (adds_renderList _ IH). adding.
  - rewrite renderOne_list. apply adds_forEachIdx.
    apply Forall_forall. intros item _ idx.
    apply adds_bind; [apply adds_subRender | intros ?; apply adds_mergeItem].
  - rewrite renderOne_list_item. apply adds_forEach.
    eapply Forall_impl; [|exact IH]. intros ch Hch.
    destruct ch; try exact Hch; unfold renderChild; adding.
  - rewrite renderOne_paragraph.
    pose proof (adds_renderList _ IH). adding.
  - rewrite renderOne_link.
    pose proof (adds_renderList _ IH). adding.
  - rewrite (renderOne_emphasis unescape _ bold tokens) by tauto.
    pose proof (adds_renderList _ IH). adding.
  - rewrite (renderOne_emphasis unescape _ italic tokens) by tauto.
    pose proof (adds_renderList _ IH). adding.
  - rewrite (renderOne_emphasis unescape _ strike tokens) by tauto.
    pose proof (adds_renderList _ IH). adding.
Qed.

End Adds.

(** X2: rendering a token never removes or changes an attribute that is
    already in the buffer: the attributes after it are those before it,
    followed by the ones it adds. *)
Theorem X2_renderOne_keeps_attrs : forall unescape tok st st',
  renderOne unescape tok st = inr (tt, st') ->
  exists more, attrs st' = attrs st ++ more.
Proof.
  intros unescape tok st st' Hrun.
  exact (renderOne_adds unescape tok st tt st' Hrun).
Qed.

Lemma X2_renderOne_keeps_attrs_witness :
  exists more,
    [horizontalrule 1;
     general italic {| start := {| line := 2; character := 1 |};
                       end_ := {| line := 2; character := 2 |} |}]
    = [horizontalrule 1] ++ more.
Proof.
  exact (X2_renderOne_keeps_attrs noEntities (TEm [TText (str "a") []])
           {| text := [[]; []]; attrs := [horizontalrule 1] |}
           {| text := [[]; str "a"];
              attrs := [horizontalrule 1;
                        general italic
                          {| start := {| line := 2; character := 1 |};
                             end_ := {| line := 2; character := 2 |} |}] |}
           eq_refl).
Defined.

(* ===================================================================== *)
(** ** Ranges run forward *)
(* ===================================================================== *)

Lemma posLe_refl p : posLe p p.
Proof. right. split; [reflexivity | lia]. Qed.

Lemma posLe_trans p q r : posLe p q -> posLe q r -> posLe p r.
Proof. unfold posLe. intros [H1|[H1 H2]] [H3|[H3 H4]]; [left|left|left|right]; lia. Qed.

(** Text that is continued has no fewer bytes: a lone surrogate at the
    seam has 3 bytes, and the pair it may form has 4. *)
Lemma encode_app_ge a b :
  (length (JS.encode a) <= length (JS.encode (a ++ b)))%nat.
Proof.
  induction a as [|c r IH IH'] using JSFacts.pair_ind.
  - cbn. lia.
  - cbn [app JS.encode]. destruct (JS.is_high c) eqn:Hc.
    + destruct r as [|d r0].
      * cbn [app]. destruct b as [|d b']; [lia|].
        destruct (JS.is_low d) eqn:Hd; rewrite length_app.
        -- rewrite JSFacts.utf8_pair_length by assumption. cbn. lia.
        -- lia.
      * cbn [app]. destruct (JS.is_low d).
        -- rewrite !length_app. specialize (IH' d r0 eq_refl). lia.
        -- rewrite !length_app. cbn [app] in IH. lia.
    + destruct (JS.is_low c); rewrite !length_app; lia.
Qed.

Lemma strBytes_app_ge a b : strBytes a <= strBytes (a ++ b).
Proof. unfold strBytes. pose proof (encode_app_ge a b). lia. Qed.

Lemma strBytes_nonneg s : 0 <= strBytes s.
Proof. unfold strBytes. lia. Qed.

Lemma eof_bounds st :
  0 <= line (getEofPosition false st)
  /\ 1 <= character (getEofPosition false st).
Proof.
  unfold getEofPosition. cbn [line character]. split; [lia|].
  pose proof (strBytes_nonneg
                match lastLine (text st) with None => [] | Some l => l end).
  lia.
Qed.

(** The end of the buffer does not move back when lines are added. *)
Lemma eof_le st st' :
  extends (text st) (text st') ->
  posLe (getEofPosition false st) (getEofPosition false st').
Proof.
  intros Hext. destruct (text st) as [|x0 r0] eqn:Et.
  - unfold getEofPosition, posLe. rewrite Et. cbn [lastLine length line character].
    destruct (text st') as [|y r']; [right; cbn; lia|].
    left. cbn [length]. lia.
  - assert (Hne : text st <> []) by (rewrite Et; discriminate).
    rewrite <- Et in Hext. apply extends_inv in Hext; [|assumption].
    destruct Hext as (x & more & E).
    rewrite (getEofPosition_last st false Hne).
    assert (Hne' : text st' <> []).
    { rewrite E. destruct (removelast (text st)); discriminate. }
    rewrite (getEofPosition_last st' false Hne').
    assert (Hlen : length (text st) = S (length (removelast (text st)))).
    { rewrite (app_removelast_last [] (l := text st)) at 1 by assumption.
      rewrite length_app. cbn [length]. unfold jsstring in *. lia. }
    rewrite E, length_app, last_app_cons. cbn [length]. unfold posLe.
    cbn [line character]. destruct more as [|m more'].
    + right. cbn [last length]. split; [unfold jsstring in *; lia|].
      pose proof (strBytes_app_ge (last (text st) []) x). lia.
    + left. cbn [length]. unfold jsstring in *. lia.
Qed.

Section Orderly.
Variable unescape : jsstring -> jsstring.

(** The range [#appendText] returns. *)
Lemma appendText_range t st r st' :
  appendText unescape t st = inr (r, st') ->
  goodRange r /\ end_ r = getEofPosition false st' /\ attrs st' = attrs st.
Proof.
  intros E. pose proof (keeps_appendText unescape t st r st' E) as Hext.
  rewrite appendText_eq in E. injection E as <- <-.
  split; [|split; [reflexivity | apply appended_attrs]].
  unfold goodRange. cbn [start end_].
  destruct (text st) as [|x0 r0] eqn:Et.
  - cbn [line character]. split; [|lia].
    unfold appended, getEofPosition, posLe. rewrite Et.
    destruct (JS.split_nl (unescape t)) as [top rest].
    cbn [text lastLine length line character].
    pose proof (strBytes_nonneg (last (top :: rest) [])).
    destruct rest; [right | left]; cbn [length]; lia.
  - split; [|apply eof_bounds].
    apply eof_le. rewrite Et. exact Hext.
Qed.

(** The range [#renderList] returns. *)
Lemma renderList_range tokens st r st' :
  renderList unescape tokens st = inr (r, st') ->
  start r = getEofPosition false st
  /\ end_ r = getEofPosition false st' /\ goodRange r.
Proof.
  intros E. pose proof (renderList_keeps unescape tokens st r st' E) as Hext.
  rewrite renderList_eq in E.
  destruct (forEach _ tokens st) as [e|[[] st1]]; [discriminate|].
  injection E as <- <-. repeat split; cbn [start end_].
  - now apply eof_le.
  - apply eof_bounds.
  - apply eof_bounds.
Qed.

Lemma orderly_ret {A} (a : A) : orderly (ret a).
Proof. intros st a' st' E H. now injection E as _ <-. Qed.

Lemma orderly_gets {A} (f : Renderer -> A) : orderly (gets f).
Proof. intros st a' st' E H. now injection E as _ <-. Qed.

Lemma orderly_throw {A} e : orderly (@throw A e).
Proof. intros st a st' E. discriminate E. Qed.

Lemma orderly_subRender r : orderly (subRender r).
Proof.
  intros st a st' E H. unfold subRender in E. destruct r; [discriminate|].
  now injection E as _ <-.
Qed.

Lemma orderly_pushText lines : orderly (pushText lines).
Proof. intros st a st' E H. now injection E as _ <-. Qed.

Lemma orderly_pushAttrs items :
  Forall attrOrdered items -> orderly (pushAttrs items).
Proof.
  intros Hi st a st' E H. injection E as _ <-. cbn [attrs].
  apply Forall_app. now split.
Qed.

Lemma orderly_bind {A B} (c : M A) (k : A -> M B) :
  orderly c -> (forall a, orderly (k a)) -> orderly (bind c k).
Proof.
  intros Hc Hk st b st2 E H.
  apply bind_inv in E as (a & st1 & E1 & E2).
  eapply Hk; [eassumption|]. eapply Hc; eassumption.
Qed.

Lemma orderly_bind_appendText {B} t (k : Range -> M B) :
  (forall r, goodRange r -> orderly (k r)) ->
  orderly (bind (appendText unescape t) k).
Proof.
  intros Hk st b st2 E H.
  apply bind_inv in E as (r & st1 & E1 & E2).
  destruct (appendText_range _ _ _ _ E1) as (Hr & _ & Ha).
  eapply (Hk r Hr); [eassumption|]. now rewrite Ha.
Qed.

Lemma orderly_forEach {A} (f : A -> M unit) l :
  Forall (fun x => orderly (f x)) l -> orderly (forEach f l).
Proof.
  induction 1 as [|x r Hx _ IH]; [apply orderly_ret|].
  cbn [forEach]. apply orderly_bind; [assumption | intros _; assumption].
Qed.

Lemma orderly_forEachIdx {A} (g : A -> nat -> M unit) l :
  Forall (fun x => forall idx, orderly (g x idx)) l ->
  forall idx, orderly (forEachIdx g idx l).
Proof.
  induction 1 as [|x r Hx _ IH]; intros idx; [apply orderly_ret|].
  cbn [forEachIdx]. apply orderly_bind; [apply Hx | intros _; apply IH].
Qed.

Lemma orderly_renderList tokens :
  Forall (fun tok => orderly (renderOne unescape tok)) tokens ->
  orderly (renderList unescape tokens).
Proof.
  intros H. unfold renderList, renderListWith.
  apply orderly_bind; [apply orderly_gets | intros ?].
  apply orderly_bind; [now apply orderly_forEach | intros ?].
  apply orderly_bind; [apply orderly_gets | intros ?; apply orderly_ret].
Qed.

Lemma orderly_bind_renderList {B} tokens (k : Range -> M B) :
  Forall (fun tok => orderly (renderOne unescape tok)) tokens ->
  (forall r, goodRange r -> orderly (k r)) ->
  orderly (bind (renderList unescape tokens) k).
Proof.
  intros Hall Hk st b st2 E H.
  apply bind_inv in E as (r & st1 & E1 & E2).
  destruct (renderList_range _ _ _ _ E1) as (_ & _ & Hr).
  eapply (Hk r Hr); [eassumption|].
  eapply orderly_renderList; eassumption.
Qed.

(** A shift to the right and down keeps a range running forward. *)
Lemma transformPosition_ordered a delta :
  0 <= line delta -> 0 <= character delta ->
  attrOrdered a -> attrOrdered (transformPosition a delta).
Proof.
  intros Hl Hc. unfold posLe.
  destruct a as [r lang|r depth|l|ty r]; cbn; unfold posLe; cbn; lia.
Qed.

Lemma map_transformPosition_ordered l delta :
  0 <= line delta -> 0 <= character delta ->
  Forall attrOrdered l ->
  Forall attrOrdered (map (fun a => transformPosition a delta) l).
Proof.
  intros Hl Hc H. apply Forall_forall. intros a Ha.
  apply in_map_iff in Ha as (a0 & <- & Ha0).
  apply transformPosition_ordered; try assumption.
  rewrite Forall_forall in H. now apply H.
Qed.

(** The attributes of a sub-render. *)
Lemma render_ordered tokens sub :
  Forall (fun tok => orderly (renderOne unescape tok)) tokens ->
  render unescape tokens = inr sub -> Forall attrOrdered (attrs sub).
Proof.
  intros Hall E. rewrite render_eq in E.
  destruct (forEach (renderOne unescape) tokens newRenderer)
    as [e|[[] st1]] eqn:Ef; [discriminate|].
  injection E as <-.
  eapply orderly_forEach; [exact Hall | exact Ef | constructor].
Qed.

Lemma orderly_merge tokens (delta : Renderer -> Position)
      (k : Renderer -> M unit) :
  Forall (fun tok => orderly (renderOne unescape tok)) tokens ->
  (forall sub, Forall attrOrdered (attrs sub) -> orderly (k sub)) ->
  orderly (bind (subRender (render unescape tokens)) k).
Proof.
  intros Hall Hk st b st2 E H.
  apply bind_inv in E as (sub & st1 & E1 & E2).
  unfold subRender in E1.
  destruct (render unescape tokens) as [e|sub0] eqn:Er; [discriminate|].
  injection E1 as <- <-.
  eapply (Hk sub0); [|eassumption|assumption].
  eapply render_ordered; eassumption.
Qed.

Ltac ordering :=
  repeat first
    [ apply orderly_ret | apply orderly_gets | apply orderly_throw
    | apply orderly_subRender | apply orderly_pushText
    | apply orderly_pushAttrs; constructor; [assumption | constructor]
    | apply orderly_bind_appendText; intros ? ?
    | apply orderly_bind_renderList; [assumption | intros ? ?]
    | assumption
    | match goal with
      | |- orderly (match ?x with _ => _ end) => destruct x
      end
    | apply orderly_bind; [|intros ?] ].

Lemma orderly_shifted sub (len : nat) (c : Z) :
  0 <= c ->
  Forall attrOrdered (attrs sub) ->
  orderly (pushAttrs
             (map (fun attr =>
                     transformPosition attr
                       {| line := Z.of_nat len; character := c |})
                  (attrs sub))).
Proof.
  intros Hc H. apply orderly_pushAttrs.
  apply map_transformPosition_ordered; cbn; try lia. assumption.
Qed.

(** Every attribute a token adds runs forward. *)
Lemma renderOne_orderly : forall tok, orderly (renderOne unescape tok).
Proof.
  induction tok as [tok IH] using Token_children_ind.
  destruct tok; cbn [children] in IH;
    try (cbn [renderOne]; ordering; fail);
    try (rewrite renderOne_link; ordering; fail);
    try (rewrite (renderOne_emphasis unescape _ bold tokens) by tauto;
         ordering; fail);
    try (rewrite (renderOne_emphasis unescape _ italic tokens) by tauto;
         ordering; fail);
    try (rewrite (renderOne_emphasis unescape _ strike tokens) by tauto;
         ordering; fail).
  - (* heading *)
    rewrite renderOne_heading. intros st b st' E H.
    apply bind_inv in E as (r1 & st1 & E1 & E).
    apply bind_inv in E as (r2 & st2 & E2 & E).
    destruct (appendText_range _ _ _ _ E1) as ((Hle1 & Hl1 & Hc1) & Hend1 & Ha1).
    destruct (renderList_range _ _ _ _ E2) as (Hs2 & _ & (Hle2 & _)).
    assert (H2 : Forall attrOrdered (attrs st2)).
    { eapply orderly_renderList; [exact IH | exact E2 |]. now rewrite Ha1. }
    inversion E; subst; clear E. cbn [attrs]. apply Forall_app.
    split; [assumption|].
    constructor; [|constructor]. cbn. repeat split; try assumption.
    eapply posLe_trans; [exact Hle1|]. rewrite Hend1, <- Hs2. exact Hle2.
  - (* hr *)
    cbn [renderOne]. intros st b st' E H.
    inversion E; subst; clear E. cbn [attrs text]. apply Forall_app.
    split; [assumption|].
    constructor; [|constructor]. cbn. rewrite length_app. cbn [length]. lia.
  - (* blockquote *)
    rewrite renderOne_blockquote.
    apply (orderly_merge tokens (fun _ => {| line := 0; character := 0 |}));
      [exact IH|].
    intros sub Hsub.
    apply orderly_bind; [apply orderly_gets | intros len].
    apply orderly_bind; [apply orderly_pushText | intros _].
    apply orderly_shifted; [lia | assumption].
  - (* list *)
    rewrite renderOne_list. apply orderly_forEachIdx.
    eapply Forall_impl; [|exact IH]. intros item Hitem idx.
    apply (orderly_merge [item] (fun _ => {| line := 0; character := 0 |}));
      [now constructor|].
    intros sub Hsub. unfold mergeItem.
    apply orderly_bind; [apply orderly_pushText | intros _].
    apply orderly_bind; [apply orderly_pushText | intros _].
    apply orderly_pushAttrs.
    apply map_transformPosition_ordered; cbn; try lia. assumption.
  - (* list item *)
    rewrite renderOne_list_item. apply orderly_forEach.
    eapply Forall_impl; [|exact IH]. intros ch Hch.
    destruct ch; try exact Hch; unfold renderChild.
    + apply (orderly_merge [TList ordered items]
               (fun _ => {| line := 0; character := 0 |}));
        [now constructor|].
      intros sub Hsub.
      apply orderly_bind; [apply orderly_gets | intros len].
      apply orderly_bind; [apply orderly_pushText | intros _].
      apply orderly_shifted; [lia | assumption].
    + ordering.
Qed.

End Orderly.

(** X3: in the output of a render every range attribute runs forward: its
    start is at or before its end in reading order, on a line that is not
    negative and at a column that is at least 1; the line of a horizontal
    rule is not negative.  This holds for every token tree, with nested
    blockquotes and lists. *)
Theorem X3_render_ranges_run_forward : forall unescape tokens st,
  render unescape tokens = inr st ->
  Forall attrOrdered (attrs st).
Proof.
  intros unescape tokens st E.
  eapply render_ordered; [|exact E].
  apply Forall_forall. intros tok _. apply renderOne_orderly.
Qed.

Lemma X3_render_ranges_run_forward_witness :
  Forall attrOrdered
    [general italic {| start := {| line := 0; character := 1 |};
                       end_ := {| line := 1; character := 2 |} |};
     horizontalrule 2].
Proof.
  exact (X3_render_ranges_run_forward noEntities
           [TParagraph [TEm [TText (str "a") []]]; THr]
           {| text := [str "a"; []; []];
              attrs := [general italic
                          {| start := {| line := 0; character := 1 |};
                             end_ := {| line := 1; character := 2 |} |};
                        horizontalrule 2] |}
           eq_refl).
Defined.

(* ===================================================================== *)
(** ** Running text *)
(* ===================================================================== *)

Lemma proseOnly_supported : forall tok,
  proseOnly tok = true -> unsupported tok = false.
Proof.
  induction tok as [tok IH] using Token_children_ind.
  destruct tok; cbn [children] in IH; cbn [proseOnly unsupported];
    try discriminate; try reflexivity.
  induction IH as [|t r Ht _ IHr]; [reflexivity|].
  cbn [forallb existsb]. intros H. apply andb_true_iff in H as [H1 H2].
  rewrite (Ht H1). cbn [orb]. now apply IHr.
Qed.

Section Silent.
Variable unescape : jsstring -> jsstring.

Lemma silent_ret {A} (a : A) : silent (ret a).
Proof. intros st a' st' E. now injection E as _ <-. Qed.

Lemma silent_gets {A} (f : Renderer -> A) : silent (gets f).
Proof. intros st a' st' E. now injection E as _ <-. Qed.

Lemma silent_pushText lines : silent (pushText lines).
Proof. intros st a st' E. now injection E as _ <-. Qed.

Lemma silent_appendText t : silent (appendText unescape t).
Proof.
  intros st a st' E. rewrite appendText_eq in E. injection E as _ <-.
  apply appended_attrs.
Qed.

Lemma silent_bind {A B} (c : M A) (k : A -> M B) :
  silent c -> (forall a, silent (k a)) -> silent (bind c k).
Proof.
  intros Hc Hk st b st2 E.
  apply bind_inv in E as (a & st1 & E1 & E2).
  rewrite (Hk _ _ _ _ E2). exact (Hc _ _ _ E1).
Qed.

Lemma silent_forEach {A} (f : A -> M unit) l :
  Forall (fun x => silent (f x)) l -> silent (forEach f l).
Proof.
  induction 1 as [|x r Hx _ IH]; [apply silent_ret|].
  cbn [forEach]. apply silent_bind; [assumption | intros _; assumption].
Qed.

Lemma renderOne_silent : forall tok,
  proseOnly tok = true -> silent (renderOne unescape tok).
Proof.
  induction tok as [tok IH] using Token_children_ind.
  intros Hp. destruct tok; cbn [children] in IH; cbn [proseOnly] in Hp;
    try discriminate.
  - cbn [renderOne]. apply silent_bind;
      [apply silent_appendText | intros _; apply silent_ret].
  - cbn [renderOne]. apply silent_bind;
      [apply silent_appendText | intros _; apply silent_ret].
  - rewrite renderOne_paragraph.
    apply silent_bind; [|intros _; apply silent_pushText].
    unfold renderList, renderListWith.
    apply silent_bind; [apply silent_gets | intros ?].
    apply silent_bind; [|intros ?].
    + apply silent_forEach. clear -IH Hp.
      induction IH as [|t r Ht _ IHr]; [constructor|].
      cbn [forallb] in Hp. apply andb_true_iff in Hp as [H1 H2].
      constructor; auto.
    + apply silent_bind; [apply silent_gets | intros ?; apply silent_ret].
  - cbn [renderOne]. apply silent_bind;
      [apply silent_appendText | intros _; apply silent_ret].
  - cbn [renderOne]. apply silent_pushText.
Qed.

End Silent.

(** X4: a document of running text only (text, space, line break and
    table tokens, and paragraphs of them) always renders, and its render
    holds no attribute. *)
Theorem X4_prose_renders_without_attrs : forall unescape tokens,
  forallb proseOnly tokens = true ->
  exists st, render unescape tokens = inr st /\ attrs st = [].
Proof.
  intros unescape tokens Hp.
  assert (Hs : existsb unsupported tokens = false).
  { induction tokens as [|t r IH]; [reflexivity|].
    cbn [forallb] in Hp. apply andb_true_iff in Hp as [H1 H2].
    cbn [existsb]. rewrite (proseOnly_supported _ H1). now apply IH. }
  pose proof (render_verdict unescape tokens) as Ho.
  rewrite existsb_unsupported in Hs.
  destruct (firstSome reached tokens); [discriminate|].
  destruct Ho as (st & Hst). exists st. split; [exact Hst|].
  rewrite render_eq in Hst.
  destruct (forEach (renderOne unescape) tokens newRenderer)
    as [e|[[] st1]] eqn:Ef; [discriminate|].
  injection Hst as <-.
  refine (silent_forEach (renderOne unescape) tokens _ _ _ _ Ef).
  apply Forall_forall. intros tok Hin. apply renderOne_silent.
  rewrite forallb_forall in Hp. now apply Hp.
Qed.

Lemma X4_prose_renders_without_attrs_witness :
  exists st,
    render noEntities
      [TParagraph [TText (str "foo") []]; TSpace [10; 10];
       TParagraph [TText (str "bar") []; TBr; TText (str "baz") []]] = inr st
    /\ attrs st = [].
Proof.
  exact (X4_prose_renders_without_attrs noEntities
           [TParagraph [TText (str "foo") []]; TSpace [10; 10];
            TParagraph [TText (str "bar") []; TBr; TText (str "baz") []]]
           eq_refl).
Defined.

(* ===================================================================== *)
(** ** The text that is appended *)
(* ===================================================================== *)

(** Splitting at line feeds and joining with line feeds gives the text
    back. *)
Lemma join_split_nl s :
  join [10] (fst (JS.split_nl s) :: snd (JS.split_nl s)) = s.
Proof.
  induction s as [|c r IH]; [reflexivity|].
  cbn [JS.split_nl]. destruct (JS.split_nl r) as [top rest].
  cbn [fst snd] in IH. destruct (c =? 10) eqn:Ec.
  - apply Z.eqb_eq in Ec. subst c.
    cbn [fst snd]. change (join [10] ([] :: top :: rest))
      with ([] ++ [10] ++ join [10] (top :: rest)).
    now rewrite IH.
  - cbn [fst snd]. destruct rest as [|l rest'].
    + cbn [join] in *. now rewrite IH.
    + change (join [10] ((c :: top) :: l :: rest'))
        with (c :: (top ++ [10] ++ join [10] (l :: rest'))).
      change (join [10] (top :: l :: rest'))
        with (top ++ [10] ++ join [10] (l :: rest')) in IH.
      now rewrite IH.
Qed.

Lemma join_cons sep y t :
  t <> [] -> join sep (y :: t) = y ++ sep ++ join sep t.
Proof. destruct t; [intros H; now contradiction H | reflexivity]. Qed.

Lemma join_continue sep l x top rest :
  join sep (l ++ (x ++ top) :: rest) =
    join sep (l ++ [x]) ++ join sep (top :: rest).
Proof.
  induction l as [|y l IH].
  - cbn [app]. destruct rest as [|z rest'].
    + reflexivity.
    + cbn [join]. now rewrite <- !app_assoc.
  - cbn [app].
    rewrite !join_cons by (destruct l; discriminate).
    rewrite IH. now rewrite <- !app_assoc.
Qed.

(** X5: [#appendText] adds to the text of the buffer, its lines joined by
    line feeds, exactly the unescaped text; the range it returns ends at
    the end of the buffer. *)
Theorem X5_appendText_flat_text : forall unescape t st r st',
  appendText unescape t st = inr (r, st') ->
  join [10] (text st') = join [10] (text st) ++ unescape t
  /\ end_ r = getEofPosition false st'
  /\ attrs st' = attrs st.
Proof.
  intros unescape t st r st' E.
  destruct (appendText_range unescape t st r st' E) as (_ & Hend & Ha).
  split; [|split; assumption].
  rewrite appendText_eq in E. injection E as _ <-.
  unfold appended. pose proof (join_split_nl (unescape t)) as Hj.
  destruct (JS.split_nl (unescape t)) as [top rest]. cbn [fst snd] in Hj.
  destruct (text st) as [|x0 r0] eqn:Et.
  - cbn [text]. exact Hj.
  - cbn [text]. rewrite join_continue. f_equal; [|exact Hj].
    apply f_equal. symmetry. apply app_removelast_last. discriminate.
Qed.

Lemma X5_appendText_flat_text_witness :
  join [10] [str "ab"; str "cd1"; str "2"] =
    join [10] [str "ab"; str "cd"] ++ noEntities (str "1" ++ [10] ++ str "2").
Proof.
  exact (proj1 (X5_appendText_flat_text noEntities
                  (str "1" ++ [10] ++ str "2")
                  {| text := [str "ab"; str "cd"]; attrs := [] |}
                  {| start := {| line := 2; character := 3 |};
                     end_ := {| line := 3; character := 2 |} |}
                  {| text := [str "ab"; str "cd1"; str "2"]; attrs := [] |}
                  eq_refl)).
Defined.

(* ===================================================================== *)
(** ** Blockquotes in blockquotes *)
(* ===================================================================== *)

(** Two shifts are the shift by their sum. *)
Lemma transformPosition_twice a d1 d2 :
  transformPosition (transformPosition a d1) d2 =
    transformPosition a {| line := line d1 + line d2;
                           character := character d1 + character d2 |}.
Proof.
  destruct a as [r lang|r depth|l|ty r];
    cbn [transformPosition line character start end_];
    now rewrite ?Z.add_assoc.
Qed.

Lemma dropLastWhile_all {A} (p : A -> bool) (l : list A) :
  forallb p l = true -> JS.dropLastWhile p l = [].
Proof.
  induction l as [|x r IH]; [reflexivity|].
  cbn [forallb JS.dropLastWhile]. intros H.
  apply andb_true_iff in H as [Hx Hr]. now rewrite (IH Hr), Hx.
Qed.

Lemma dropLastWhile_none {A} (p : A -> bool) (l : list A) :
  forallb (fun x => negb (p x)) l = true -> JS.dropLastWhile p l = l.
Proof.
  induction l as [|x r IH]; [reflexivity|].
  cbn [forallb JS.dropLastWhile]. intros H.
  apply andb_true_iff in H as [Hx Hr]. rewrite (IH Hr).
  apply negb_true_iff in Hx. rewrite Hx. now destruct r.
Qed.

Lemma dropLastWhile_app {A} (p : A -> bool) (l d : list A) :
  forallb p d = true ->
  JS.dropLastWhile p (l ++ d) = JS.dropLastWhile p l.
Proof.
  intros Hd. induction l as [|x r IH].
  - cbn [app]. now apply dropLastWhile_all.
  - cbn [app JS.dropLastWhile]. now rewrite IH.
Qed.

Lemma quoted_not_blank (lines : list jsstring) :
  forallb (fun x => negb (JS.is_blank x)) (map (fun v => str "> " ++ v) lines)
  = true.
Proof. induction lines as [|l r IH]; [reflexivity | exact IH]. Qed.

(** X6: a blockquote in a blockquote prefixes the lines of its content
    with ["> > "] and moves the attributes of the content by 4 columns and
    by the number of lines of the parent: the two merges add up. *)
Theorem X6_nested_blockquote : forall unescape tokens parent sub,
  render unescape tokens = inr sub ->
  renderOne unescape (TBlockquote [TBlockquote tokens]) parent =
    inr (tt,
         {| text := text parent
                      ++ map (fun v => str "> > " ++ v)
                             (JS.dropLastWhile JS.is_blank (text sub))
                      ++ [[]];
            attrs := attrs parent
                       ++ map (fun a =>
                                 transformPosition a
                                   {| line := Z.of_nat (length (text parent));
                                      character := 4 |})
                              (attrs sub) |}).
Proof.
  intros unescape tokens parent sub Hsub.
  assert (Hinner : render unescape [TBlockquote tokens] =
            inr {| text := map (fun v => str "> " ++ v)
                               (JS.dropLastWhile JS.is_blank (text sub)) ++ [[]];
                   attrs := map (fun a =>
                                   transformPosition a
                                     {| line := 0; character := 2 |})
                                (attrs sub) |}).
  { rewrite render_one, renderOne_blockquote.
    unfold bind, subRender, gets, pushText, pushAttrs, modify.
    rewrite Hsub. reflexivity. }
  rewrite renderOne_blockquote.
  unfold bind, subRender, gets, pushText, pushAttrs, modify.
  rewrite Hinner. cbn [text attrs]. do 2 f_equal. f_equal.
  - f_equal. rewrite dropLastWhile_app by reflexivity.
    rewrite dropLastWhile_none by apply quoted_not_blank.
    rewrite map_map. reflexivity.
  - f_equal. rewrite map_map. apply map_ext. intros a.
    rewrite transformPosition_twice. reflexivity.
Qed.

Lemma X6_nested_blockquote_witness :
  renderOne noEntities
    (TBlockquote
       [TBlockquote
          [TParagraph [TText (str "an ") []; TEm [TText (str "quoted") []]]]])
    {| text := [str "pre"; []]; attrs := [] |} =
    inr (tt,
         {| text := [str "pre"; []; str "> > an quoted"; []];
            attrs := [general italic
                        {| start := {| line := 3; character := 8 |};
                           end_ := {| line := 3; character := 14 |} |}] |}).
Proof.
  exact (X6_nested_blockquote noEntities
           [TParagraph [TText (str "an ") []; TEm [TText (str "quoted") []]]]
           {| text := [str "pre"; []]; attrs := [] |}
           {| text := [str "an quoted"; []];
              attrs := [general italic
                          {| start := {| line := 1; character := 4 |};
                             end_ := {| line := 1; character := 10 |} |}] |}
           eq_refl).
Defined.

(* ===================================================================== *)
(** ** The lines of a list *)
(* ===================================================================== *)

Lemma itemLines_length ordered items item idx sub :
  length (itemLines ordered items item idx sub)
  = Nat.max 1 (length (text sub)).
Proof.
  unfold itemLines. cbn [length]. rewrite length_map.
  destruct (text sub) as [|h t]; cbn [tl length]; unfold jsstring in *; lia.
Qed.

Lemma listLines_length ordered items : forall l subs from,
  length l = length subs ->
  length (listLines ordered items from l subs)
  = list_sum (map (fun sub => Nat.max 1 (length (text sub))) subs).
Proof.
  induction l as [|item r IH]; intros subs from Hlen.
  - destruct subs; [reflexivity | discriminate].
  - destruct subs as [|sub subs]; [discriminate|].
    unfold listLines in *. cbn [length seq combine map concat].
    change (list_sum (?a :: ?b)) with (a + list_sum b)%nat.
    rewrite length_app, itemLines_length.
    injection Hlen as Hlen. now rewrite (IH subs (S from) Hlen).
Qed.

Lemma list_sum_ge (f : Renderer -> nat) (subs : list Renderer) :
  (forall sub, 1 <= f sub)%nat ->
  (length subs <= list_sum (map f subs))%nat.
Proof.
  intros Hf. induction subs as [|s r IH]; [cbn; lia|].
  cbn [length map].
  change (list_sum (f s :: map f r)) with (f s + list_sum (map f r))%nat.
  specialize (Hf s). lia.
Qed.

(** X7: a list adds to the buffer the lines of its items and nothing
    else: every item gives as many lines as its sub-render has, and one
    line when its sub-render has none; so a list of [n] items adds at
    least [n] lines. *)
Theorem X7_list_line_count : forall unescape ordered items st st',
  renderOne unescape (TList ordered items) st = inr (tt, st') ->
  exists subs,
    Forall2 (fun item sub => render unescape [item] = inr sub) items subs
    /\ length (text st')
       = (length (text st)
          + list_sum (map (fun sub => Nat.max 1 (length (text sub))) subs))%nat
    /\ (length (text st) + length items <= length (text st'))%nat.
Proof.
  intros unescape ordered items st st' E.
  destruct (renderOne_list_lines unescape ordered items st st' E)
    as (subs & Hsubs & Htext).
  exists subs. split; [exact Hsubs|].
  pose proof (Forall2_length Hsubs) as Hlen.
  assert (Hl : length (text st')
               = (length (text st)
                  + list_sum (map (fun sub => Nat.max 1 (length (text sub)))
                                  subs))%nat).
  { rewrite Htext, length_app, listLines_length by assumption. reflexivity. }
  split; [exact Hl|].
  pose proof (list_sum_ge (fun sub => Nat.max 1 (length (text sub))) subs
                ltac:(intros; cbn beta; lia)).
  lia.
Qed.

Lemma X7_list_line_count_witness :
  exists subs,
    Forall2 (fun item sub => render noEntities [item] = inr sub)
            [TListItem None [TText (str "a" ++ [10] ++ str "b") []];
             TListItem None []] subs
    /\ length [str "1. a"; str "   b"; str "2. undefined"]
       = (0 + list_sum (map (fun sub => Nat.max 1 (length (text sub))) subs))%nat
    /\ (0 + 2 <= length [str "1. a"; str "   b"; str "2. undefined"])%nat.
Proof.
  exact (X7_list_line_count noEntities true
           [TListItem None [TText (str "a" ++ [10] ++ str "b") []];
            TListItem None []]
           newRenderer
           {| text := [str "1. a"; str "   b"; str "2. undefined"];
              attrs := [] |}
           eq_refl).
Defined.

(** The label of an item of an ordered list is ASCII text as long as the
    label size. *)
Lemma ordered_label_ascii items idx :
  (idx < length items)%nat ->
  Forall (fun c => c < 0x80) (itemLabel true items idx)
  /\ length (itemLabel true items idx) = labelSize true items.
Proof.
  intros Hidx. unfold itemLabel, labelSize, JS.padStart.
  assert (Hnum : (length (JS.toString (idx + 1))
                  <= length (JS.toString (length items)))%nat).
  { apply ArrayFacts.toString_length_mono. lia. }
  split.
  - apply Forall_app; split; [|apply str_dot_ascii].
    apply Forall_app; split; [apply repeat_ascii; lia | apply toString_ascii].
  - rewrite !length_app, ArrayFacts.length_repeat.
    change (length (str ".")) with 1%nat. lia.
Qed.

Lemma checkbox_ascii items item :
  Forall (fun c => c < 0x80) (itemCheckbox items item ++ str " ").
Proof.
  apply Forall_app; split; [|repeat constructor].
  unfold itemCheckbox. destruct (item_checked item) as [[|]|].
  - repeat constructor.
  - repeat constructor.
  - apply repeat_ascii. lia.
Qed.

(** X8: when an item carries no checkbox state, or when some item of the
    list is checked, the label, the checkbox and the space before the text
    of the item take exactly [indentSize] bytes: the text of the first
    line starts at the column where the following lines of the item are
    indented to, and by which the attributes of the item are moved. *)
Theorem X8_item_prefix_width : forall ordered items item idx,
  nth_error items idx = Some item ->
  item_checked item = None
  \/ existsb (fun v => truthy (item_checked v)) items = true ->
  strBytes (itemLabel ordered items idx ++ itemCheckbox items item ++ str " ")
  = Z.of_nat (indentSize ordered items).
Proof.
  intros ordered items item idx Hnth Hbox.
  assert (Hidx : (idx < length items)%nat).
  { apply nth_error_Some. rewrite Hnth. discriminate. }
  rewrite strBytes_app_ascii by apply checkbox_ascii.
  assert (Hc : length (itemCheckbox items item) = checkboxSize items).
  { unfold itemCheckbox. rewrite checkboxSize_checked.
    destruct Hbox as [Hnone|Hsome].
    - rewrite Hnone. apply ArrayFacts.length_repeat.
    - rewrite Hsome. destruct (item_checked item) as [[|]|];
        [reflexivity | reflexivity | apply ArrayFacts.length_repeat]. }
  rewrite length_app, Hc. change (length (str " ")) with 1%nat.
  unfold indentSize.
  assert (Hl : strBytes (itemLabel ordered items idx)
               = Z.of_nat (labelSize ordered items)).
  { destruct ordered.
    - destruct (ordered_label_ascii items idx Hidx) as (Ha & Hlen).
      rewrite JSFacts.strBytes_ascii by assumption. now rewrite Hlen.
    - unfold itemLabel, labelSize. rewrite Z2Nat.id; [reflexivity|].
      apply strBytes_nonneg. }
  rewrite Hl. lia.
Qed.

Lemma X8_item_prefix_width_witness :
  strBytes (str " 3." ++ str " [ ]" ++ str " ") = 8.
Proof.
  exact (X8_item_prefix_width true
           (List.repeat (TListItem (Some false) []) 9
              ++ [TListItem (Some true) []])
           (TListItem (Some false) []) 2 eq_refl
           (or_intror eq_refl)).
Defined.

(* ===================================================================== *)
(** ** Markup text *)
(* ===================================================================== *)

Lemma join_split_crnl s : join [10] (splitCrLines s) = lfOnly s.
Proof.
  unfold splitCrLines. induction s as [|c r IH]; [reflexivity|].
  cbn [split_crnl lfOnly]. destruct (split_crnl r) as [top rest].
  cbn [fst snd] in IH. destruct (c =? 10) eqn:Ec.
  - apply Z.eqb_eq in Ec. subst c. cbn [fst snd andb Z.eqb].
    change (join [10] ([] :: top :: rest))
      with ([] ++ [10] ++ join [10] (top :: rest)).
    rewrite IH. reflexivity.
  - destruct ((c =? 13) && match r with d :: _ => d =? 10 | [] => false end).
    + exact IH.
    + cbn [fst snd]. destruct rest as [|l rest'].
      * cbn [join] in *. now rewrite IH.
      * change (join [10] ((c :: top) :: l :: rest'))
          with (c :: (top ++ [10] ++ join [10] (l :: rest'))).
        change (join [10] (top :: l :: rest'))
          with (top ++ [10] ++ join [10] (l :: rest')) in IH.
        now rewrite IH.
Qed.

Lemma lfOnly_without_cr s : ~ In 13 s -> lfOnly s = s.
Proof.
  induction s as [|c r IH]; [reflexivity|]. intros Hn. cbn [lfOnly].
  destruct (Z.eqb_spec c 13) as [->|Hc]; [contradiction Hn; now left|].
  cbn [andb]. rewrite IH; [reflexivity|]. intros H. apply Hn. now right.
Qed.

Lemma splitCrLines_no_lf s : Forall (fun l => ~ In 10 l) (splitCrLines s).
Proof.
  unfold splitCrLines. induction s as [|c r IH].
  - repeat constructor. intros [].
  - cbn [split_crnl]. destruct (split_crnl r) as [top rest].
    cbn [fst snd] in IH. destruct (Z.eqb_spec c 10) as [->|Hc].
    + cbn [fst snd]. constructor; [intros []|exact IH].
    + destruct ((c =? 13) && match r with d :: _ => d =? 10 | [] => false end);
        [exact IH|].
      cbn [fst snd]. inversion IH as [|? ? Htop Hrest]; subst.
      constructor; [|exact Hrest].
      intros [H|H]; [now apply Hc | now apply Htop].
Qed.

(** X9: for a string, and for a markup content of kind plaintext,
    [getMarkupText] parses nothing and never fails: it returns no
    attribute and the lines of the text, cut at every line feed and at
    every carriage return with a line feed.  No line holds a line feed,
    and the lines joined by line feeds are the text with those carriage
    returns taken out: the text itself when it holds no carriage return. *)
Theorem X9_plain_text_lines : forall unescape lexer s,
  exists lines,
    getMarkupText unescape lexer (InString s)
      = inr {| text := lines; attrs := [] |}
    /\ getMarkupText unescape lexer (InMarkupContent kindPlaintext s)
       = inr {| text := lines; attrs := [] |}
    /\ Forall (fun l => ~ In 10 l) lines
    /\ join [10] lines = lfOnly s
    /\ (~ In 13 s -> join [10] lines = s).
Proof.
  intros unescape lexer s. exists (splitCrLines s).
  split; [reflexivity|]. split; [reflexivity|].
  split; [apply splitCrLines_no_lf|].
  split; [apply join_split_crnl|].
  intros H. rewrite join_split_crnl. now apply lfOnly_without_cr.
Qed.

Lemma X9_plain_text_lines_witness :
  exists lines,
    getMarkupText noEntities (lexerOf [])
      (InString (str "a" ++ [13; 10] ++ str "<b>" ++ [10] ++ str "c"))
      = inr {| text := lines; attrs := [] |}
    /\ lines = [str "a"; str "<b>"; str "c"].
Proof.
  destruct (X9_plain_text_lines noEntities (lexerOf [])
              (str "a" ++ [13; 10] ++ str "<b>" ++ [10] ++ str "c"))
    as (lines & H & _).
  exists lines. split; [exact H|].
  injection H as H. now rewrite <- H.
Defined.

(** X10: for a markup content of kind markdown [getMarkupText] is
    [parseMarkdown] on the value with the carriage returns before line
    feeds taken out: cutting the value into lines and joining the lines
    again changes nothing else, and nothing at all when the value holds no
    carriage return. *)
Theorem X10_markdown_content : forall unescape lexer value,
  getMarkupText unescape lexer (InMarkupContent kindMarkdown value)
    = parseMarkdown unescape lexer (lfOnly value)
  /\ (~ In 13 value ->
      getMarkupText unescape lexer (InMarkupContent kindMarkdown value)
        = parseMarkdown unescape lexer value).
Proof.
  intros unescape lexer value.
  assert (E : getMarkupText unescape lexer (InMarkupContent kindMarkdown value)
              = parseMarkdown unescape lexer (lfOnly value)).
  { unfold getMarkupText, normalizeMarkupText. now rewrite join_split_crnl. }
  split; [exact E|]. intros H. rewrite E. now rewrite lfOnly_without_cr.
Qed.

Lemma X10_markdown_content_witness :
  getMarkupText noEntities (lexerOf [THeading 1 [TText (str "t") []]])
    (InMarkupContent kindMarkdown (str "# t"))
  = parseMarkdown noEntities (lexerOf [THeading 1 [TText (str "t") []]])
      (str "# t").
Proof.
  refine (proj2 (X10_markdown_content noEntities
                   (lexerOf [THeading 1 [TText (str "t") []]]) (str "# t")) _).
  cbn. intuition discriminate.
Defined.

Lemma eqb_jsstring_eq a : forall b, eqb_jsstring a b = true <-> a = b.
Proof.
  induction a as [|x a IH]; intros [|y b]; cbn [eqb_jsstring];
    try (split; [discriminate | discriminate]); [tauto|].
  rewrite andb_true_iff, Z.eqb_eq, IH. split.
  - intros [-> ->]. reflexivity.
  - intros E. injection E as -> ->. tauto.
Qed.

Lemma dropLastWhile_keep {A} (p : A -> bool) (l : list A) x d :
  p x = false -> forallb p d = true ->
  JS.dropLastWhile p (l ++ x :: d) = l ++ [x].
Proof.
  intros Hx Hd. induction l as [|y l IH].
  - cbn [app JS.dropLastWhile]. now rewrite (dropLastWhile_all p d Hd), Hx.
  - cbn [app JS.dropLastWhile]. rewrite IH. now destruct l.
Qed.

Lemma join_snoc sep l x :
  l <> [] -> join sep (l ++ [x]) = join sep l ++ sep ++ x.
Proof.
  induction l as [|y l IH]; [intros H; now contradiction H|]. intros _.
  destruct l as [|z l'].
  - reflexivity.
  - cbn [app]. rewrite (join_cons sep y (z :: l' ++ [x])) by discriminate.
    rewrite (join_cons sep y (z :: l')) by discriminate.
    cbn [app] in IH. rewrite IH by discriminate. now rewrite <- !app_assoc.
Qed.

(** X11: marked strings that end with a code block give the lines of all
    of them but the separator after the last block: the fence that closes
    the block is the last line.  So a marked string with a language is
    parsed as its value between the fence with the language and the closing
    fence. *)
Theorem X11_marked_code_block : forall unescape lexer contents language value,
  markedStringToMarkdown (contents ++ [MarkedCode language value])
    = flat_map markedLines contents
        ++ [str "```" ++ language] ++ splitLines value ++ [str "```"]
  /\ getMarkupText unescape lexer (InMarkedCode language value)
     = parseMarkdown unescape lexer
         (str "```" ++ language ++ [10] ++ value ++ [10] ++ str "```").
Proof.
  intros unescape lexer contents language value.
  assert (E : forall l,
             markedStringToMarkdown (l ++ [MarkedCode language value])
             = flat_map markedLines l
                 ++ [str "```" ++ language] ++ splitLines value ++ [str "```"]).
  { intros l. unfold markedStringToMarkdown.
    rewrite flat_map_app. cbn [flat_map markedLines]. rewrite app_nil_r.
    replace (flat_map markedLines l
               ++ [str "```" ++ language] ++ splitLines value ++ [str "```"; sep])
      with ((flat_map markedLines l ++ [str "```" ++ language] ++ splitLines value)
              ++ str "```" :: [sep])
      by (now rewrite <- !app_assoc).
    rewrite dropLastWhile_keep by reflexivity.
    now rewrite <- !app_assoc. }
  split; [apply E|].
  unfold getMarkupText, normalizeMarkupText.
  pose proof (E []) as E0. cbn [flat_map app] in E0.
  cbn [getMarkupText normalizeMarkupText]. rewrite E0.
  f_equal.
  rewrite join_cons by (unfold splitLines; discriminate).
  rewrite join_snoc by (unfold splitLines; discriminate).
  unfold splitLines. rewrite join_split_nl.
  now rewrite <- !app_assoc.
Qed.

(** X12: the lines [markedStringToMarkdown] returns are the lines of the
    marked strings without a suffix of separators and blank lines, and
    they do not end with a separator or a blank line. *)
Theorem X12_marked_lines_trimmed : forall contents,
  exists dropped,
    flat_map markedLines contents = markedStringToMarkdown contents ++ dropped
    /\ Forall (fun v => v = sep \/ JS.is_blank v = true) dropped
    /\ (markedStringToMarkdown contents <> [] ->
        last (markedStringToMarkdown contents) [] <> sep
        /\ JS.is_blank (last (markedStringToMarkdown contents) []) = false).
Proof.
  intros contents. unfold markedStringToMarkdown.
  set (p := fun v => eqb_jsstring v sep || JS.is_blank v).
  destruct (TrimFacts.dropLastWhile_suffix p (flat_map markedLines contents))
    as (dropped & Hsplit & Hall).
  exists dropped. split; [exact Hsplit|]. split.
  - apply Forall_forall. intros v Hv. rewrite forallb_forall in Hall.
    specialize (Hall v Hv). unfold p in Hall.
    apply orb_true_iff in Hall as [H|H]; [left; now apply eqb_jsstring_eq | now right].
  - intros Hne.
    pose proof (TrimFacts.dropLastWhile_last p _ [] Hne) as Hlast.
    unfold p in Hlast at 1. apply orb_false_iff in Hlast as [H1 H2].
    split; [|exact H2].
    intros Heq. apply eqb_jsstring_eq in Heq. rewrite Heq in H1. discriminate.
Qed.

Lemma X12_marked_lines_trimmed_witness :
  markedStringToMarkdown
    [MarkedCode (str "ts") (str "x"); MarkedText (str "done" ++ [10] ++ str " ")]
  = [str "```ts"; str "x"; str "```"; sep; str "done"].
Proof.
  destruct (X12_marked_lines_trimmed
              [MarkedCode (str "ts") (str "x");
               MarkedText (str "done" ++ [10] ++ str " ")])
    as (dropped & _ & _ & _).
  reflexivity.
Defined.

(* ===================================================================== *)
(** ** Ranges for Vim *)
(* ===================================================================== *)

Lemma chunk_pairs (f := fun r : list Position =>
                          match r with
                          | a :: b :: _ =>
                              inr {| start := a;
                                     end_ := {| line := line b;
                                                character := character b + 1 |} |}
                          | _ => inl TypeError
                          end) :
  forall n converted,
    length converted = (2 * n)%nat ->
    exists result,
      mapThrowing f (chunk2 converted) = inr result
      /\ length result = n
      /\ flat_map (fun r => [start r;
                             {| line := line (end_ r);
                                character := character (end_ r) - 1 |}])
                  result = converted.
Proof.
  induction n as [|n IH]; intros converted Hlen.
  - destruct converted; [|discriminate]. exists []. now repeat split.
  - destruct converted as [|a [|b r]]; try (cbn in Hlen; lia).
    destruct (IH r) as (result & E & L & F); [cbn in Hlen; lia|].
    exists ({| start := a;
               end_ := {| line := line b; character := character b + 1 |} |}
              :: result).
    cbn [chunk2 mapThrowing]. unfold f at 1. rewrite E.
    split; [reflexivity|]. split; [cbn [length]; now rewrite L|].
    cbn [flat_map app start end_ line character]. rewrite F.
    destruct b as [bl bc]. cbn [line character].
    now replace (bc + 1 - 1) with bc by lia.
Qed.

Lemma chunk_odd (f := fun r : list Position =>
                        match r with
                        | a :: b :: _ =>
                            inr {| start := a;
                                   end_ := {| line := line b;
                                              character := character b + 1 |} |}
                        | _ => inl TypeError
                        end) :
  forall n converted,
    length converted = (2 * n + 1)%nat ->
    mapThrowing f (chunk2 converted) = inl TypeError.
Proof.
  induction n as [|n IH]; intros converted Hlen.
  - destruct converted as [|a [|b r]]; try discriminate. reflexivity.
  - destruct converted as [|a [|b r]]; try (cbn in Hlen; lia).
    cbn [chunk2 mapThrowing]. unfold f at 1.
    rewrite IH; [reflexivity | cbn in Hlen; lia].
Qed.

(** X13: [toVimRanges] does not call the host for no range.  For some
    ranges whose positions the host converts, an even number 2n of
    converted positions gives n ranges, which are the converted positions
    taken two by two with the column of each end one further; an odd number
    of converted positions makes it fail on the last one. *)
Theorem X13_toVimRanges_pairs : forall call,
  toVimRanges call [] = inr []
  /\ forall ranges converted,
      ranges <> [] ->
      call (map (fun p => (line p, character p))
              (flat_map (fun r => [start (getInclusiveRange r);
                                   end_ (getInclusiveRange r)]) ranges))
        = inr converted ->
      (forall n, length converted = (2 * n)%nat ->
         exists result,
           toVimRanges call ranges = inr result
           /\ length result = n
           /\ flat_map (fun r => [start r;
                                  {| line := line (end_ r);
                                     character := character (end_ r) - 1 |}])
                       result
              = map (fun p => {| line := fst p; character := snd p |}) converted)
      /\ (forall n, length converted = (2 * n + 1)%nat ->
            toVimRanges call ranges = inl TypeError).
Proof.
  intros call. split; [reflexivity|].
  intros ranges converted Hne Hcall.
  assert (E : toVimRanges call ranges
              = mapThrowing
                  (fun r : list Position =>
                     match r with
                     | a :: b :: _ =>
                         inr {| start := a;
                                end_ := {| line := line b;
                                           character := character b + 1 |} |}
                     | _ => inl TypeError
                     end)
                  (chunk2 (map (fun p => {| line := fst p; character := snd p |})
                               converted))).
  { destruct ranges as [|r rs]; [now contradiction Hne|].
    unfold toVimRanges, toVimPositions. cbv zeta.
    cbn [flat_map app] in *. now rewrite Hcall. }
  split; intros n Hlen; rewrite E.
  - apply chunk_pairs. now rewrite length_map.
  - apply (chunk_odd n). now rewrite length_map.
Qed.

Lemma X13_toVimRanges_pairs_witness :
  exists result,
    toVimRanges (fun ps => inr (map (fun p => (fst p + 1, snd p + 1)) ps))
      [{| start := {| line := 0; character := 0 |};
          end_ := {| line := 0; character := 3 |} |}] = inr result
    /\ length result = 1%nat.
Proof.
  destruct (proj2 (X13_toVimRanges_pairs
                     (fun ps => inr (map (fun p => (fst p + 1, snd p + 1)) ps)))
              [{| start := {| line := 0; character := 0 |};
                  end_ := {| line := 0; character := 3 |} |}]
              [(1, 1); (1, 3)]
              ltac:(discriminate) eq_refl) as [Heven _].
  destruct (Heven 1%nat eq_refl) as (result & E & L & _).
  exists result. split; assumption.
Defined.

(** X18: with a host that converts position by position, [toVimRanges]
    converts range by range and in order: the two positions it sends for a
    range come back as the start and the end of the same range.  A range of
    zero width comes back one column wide, on the line of its converted
    inclusive end. *)
Theorem X18_toVimRanges_pointwise : forall (c : Z * Z -> Z * Z) ranges,
  toVimRanges (fun ps => inr (map c ps)) ranges
    = inr (map (convertRange c) ranges)
  /\ forall r, start r = end_ r ->
       line (end_ (convertRange c r)) = line (start (convertRange c r))
       /\ character (end_ (convertRange c r))
          = character (start (convertRange c r)) + 1.
Proof.
  intros c ranges. split.
  - assert (E : forall rs,
               mapThrowing
                 (fun r : list Position =>
                    match r with
                    | a :: b :: _ =>
                        inr {| start := a;
                               end_ := {| line := line b;
                                          character := character b + 1 |} |}
                    | _ => inl TypeError
                    end)
                 (chunk2
                    (map (fun p => {| line := fst p; character := snd p |})
                       (map c
                          (map (fun p => (line p, character p))
                             (flat_map
                                (fun r => [start (getInclusiveRange r);
                                           end_ (getInclusiveRange r)]) rs)))))
               = inr (map (convertRange c) rs)).
    { induction rs as [|r rs IH]; [reflexivity|].
      cbn [flat_map app map chunk2 mapThrowing]. rewrite IH. reflexivity. }
    destruct ranges as [|r rs]; [reflexivity|].
    specialize (E (r :: rs)).
    unfold toVimRanges, toVimPositions. cbv zeta.
    cbn [flat_map app] in *. exact E.
  - intros [[sl sc] [el ec]]. cbn [start end_]. intros E.
    injection E as -> ->.
    unfold convertRange, getInclusiveRange. cbn [start end_ line character].
    rewrite !Z.eqb_refl. cbn [andb].
    destruct (ec =? 0); cbn [start end_ line character]; split; reflexivity.
Qed.

Lemma X18_toVimRanges_pointwise_witness :
  toVimRanges (fun ps => inr (map (fun p => (fst p + 1, snd p + 1)) ps))
    [{| start := {| line := 0; character := 4 |};
        end_ := {| line := 0; character := 4 |} |};
     {| start := {| line := 1; character := 0 |};
        end_ := {| line := 2; character := 0 |} |}]
  = inr [{| start := {| line := 1; character := 4 |};
            end_ := {| line := 1; character := 5 |} |};
         {| start := {| line := 2; character := 1 |};
            end_ := {| line := 2; character := 1 |} |}].
Proof.
  exact (proj1 (X18_toVimRanges_pointwise
                  (fun p => (fst p + 1, snd p + 1))
                  [{| start := {| line := 0; character := 4 |};
                      end_ := {| line := 0; character := 4 |} |};
                   {| start := {| line := 1; character := 0 |};
                      end_ := {| line := 2; character := 0 |} |}])).
Defined.

(* ===================================================================== *)
(** ** Highlights for Neovim *)
(* ===================================================================== *)

Lemma countUp_nil lo hi : hi <= lo -> countUp lo hi = [].
Proof.
  intros H. unfold countUp. now replace (Z.to_nat (hi - lo)) with 0%nat by lia.
Qed.

Lemma countUp_cons lo hi : lo < hi -> countUp lo hi = lo :: countUp (lo + 1) hi.
Proof.
  intros H. unfold countUp.
  replace (Z.to_nat (hi - lo)) with (S (Z.to_nat (hi - (lo + 1)))) by lia.
  cbn [seq map]. f_equal; [lia|].
  rewrite <- seq_shift, map_map. apply map_ext. intros i. lia.
Qed.

Lemma countUp_snoc lo hi :
  lo < hi -> countUp lo hi = countUp lo (hi - 1) ++ [hi - 1].
Proof.
  intros H. unfold countUp.
  replace (Z.to_nat (hi - lo)) with (S (Z.to_nat (hi - 1 - lo))) by lia.
  rewrite seq_S, map_app. cbn [map Nat.add]. f_equal. f_equal. lia.
Qed.

Lemma countUp_pred a b :
  map (fun l => l - 1) (countUp a b) = countUp (a - 1) (b - 1).
Proof.
  unfold countUp. rewrite map_map.
  replace (b - 1 - (a - 1)) with (b - a) by lia.
  apply map_ext. intros i. lia.
Qed.

(** X14: for a highlight that does not end before the line it starts on,
    [addNvimHighlights] makes one call for every line from the first to the
    last, in this order and with the line numbers one less.  The first call
    starts at the start column less one and the last call ends at the end
    column less one; every other call starts at column 0, and every call
    but the last ends at -1, the end of the line. *)
Theorem X14_nvim_highlight_lines : forall h,
  line (start h) <= line (end_ h) ->
  map (fun c => fst (fst c)) (nvimHighlightCalls h)
    = countUp (line (start h) - 1) (line (end_ h))
  /\ snd (fst (hd (0, 0, 0) (nvimHighlightCalls h))) = character (start h) - 1
  /\ snd (last (nvimHighlightCalls h) (0, 0, 0)) = character (end_ h) - 1
  /\ Forall (fun c => snd (fst c) = 0) (tl (nvimHighlightCalls h))
  /\ Forall (fun c => snd c = -1) (removelast (nvimHighlightCalls h)).
Proof.
  intros [[sl sc] [el ec]]. cbn [start end_ line character]. intros Hle.
  unfold nvimHighlightCalls. cbn [start end_ line character].
  destruct (Z.eqb_spec sl el) as [->|Hne].
  - cbn [map fst snd hd last tl removelast].
    rewrite countUp_cons by lia. rewrite countUp_nil by lia.
    repeat split; constructor.
  - set (mid := map (fun l => (l - 1, 0, -1)) (countUp (sl + 1) el)).
    assert (Hmid : map (fun c : Z * Z * Z => fst (fst c)) mid = countUp sl (el - 1)).
    { unfold mid. rewrite map_map. cbn [fst].
      rewrite countUp_pred. f_equal. lia. }
    assert (H0 : Forall (fun c : Z * Z * Z => snd (fst c) = 0) mid).
    { unfold mid. apply Forall_forall. intros c Hc.
      apply in_map_iff in Hc as (l & <- & _). reflexivity. }
    assert (H1 : Forall (fun c : Z * Z * Z => snd c = -1) mid).
    { unfold mid. apply Forall_forall. intros c Hc.
      apply in_map_iff in Hc as (l & <- & _). reflexivity. }
    cbn [app]. split; [|split; [|split; [|split]]].
    + cbn [map fst]. rewrite map_app, Hmid. cbn [map fst].
      rewrite (countUp_cons (sl - 1) el) by lia.
      replace (sl - 1 + 1) with sl by lia.
      now rewrite (countUp_snoc sl el) by lia.
    + reflexivity.
    + rewrite app_comm_cons. now rewrite last_last.
    + cbn [tl]. apply Forall_app. split; [exact H0|]. now constructor.
    + rewrite app_comm_cons, removelast_last. now constructor.
Qed.

Lemma X14_nvim_highlight_lines_witness :
  map (fun c => fst (fst c))
      (nvimHighlightCalls {| start := {| line := 2; character := 5 |};
                             end_ := {| line := 4; character := 3 |} |})
  = [1; 2; 3].
Proof.
  refine (proj1 (X14_nvim_highlight_lines
                   {| start := {| line := 2; character := 5 |};
                      end_ := {| line := 4; character := 3 |} |} _)).
  cbn. lia.
Defined.

(* ===================================================================== *)
(** ** The preview popup *)
(* ===================================================================== *)

(** X15: for a border given by its eight characters, clockwise from the
    top left corner, [toNvimBorder] hands over the eight characters in this
    order and [toVimBorder] the same eight characters, the four sides (top,
    right, bottom, left) before the four corners (top left, top right,
    bottom right, bottom left).  In Vim a side is drawn exactly when its
    character is not empty. *)
Theorem X15_custom_border_chars : forall lt t rt r rb b lb l,
  exists flags vchars nchars,
    toVimBorder (borderCustom lt t rt r rb b lb l) = vimBorder flags vchars
    /\ toNvimBorder (borderCustom lt t rt r rb b lb l) = nvimChars nchars
    /\ nchars = [lt; t; rt; r; rb; b; lb; l]
    /\ vchars = map (fun i => nth i nchars []) [1; 3; 5; 7; 0; 2; 4; 6]%nat
    /\ Permutation vchars nchars
    /\ firstn 4 vchars = [t; r; b; l]
    /\ skipn 4 vchars = [lt; rt; rb; lb]
    /\ Forall2 (fun flag side => (flag = 1 /\ side <> []) \/ (flag = 0 /\ side = []))
               flags (firstn 4 vchars).
Proof.
  intros lt t rt r rb b lb l.
  exists [if nonEmpty t then 1 else 0; if nonEmpty r then 1 else 0;
          if nonEmpty b then 1 else 0; if nonEmpty l then 1 else 0],
         [t; r; b; l; lt; rt; rb; lb], [lt; t; rt; r; rb; b; lb; l].
  split; [reflexivity|]. split; [reflexivity|]. split; [reflexivity|].
  split; [reflexivity|].
  split; [|split; [reflexivity|split; [reflexivity|]]].
  - apply (Permutation_cons_app [lt] [rt; r; rb; b; lb; l]).
    apply (Permutation_cons_app [lt; rt] [rb; b; lb; l]).
    apply (Permutation_cons_app [lt; rt; rb] [lb; l]).
    apply (Permutation_cons_app [lt; rt; rb; lb] []).
    apply Permutation_refl.
  - cbn [firstn].
    assert (H : forall s : jsstring,
               ((if nonEmpty s then 1 else 0) = 1 /\ s <> [])
               \/ ((if nonEmpty s then 1 else 0) = 0 /\ s = [])).
    { intros [|c s]; [right; now split | left; split; [reflexivity | discriminate]]. }
    repeat (apply Forall2_cons; [apply H|]). apply Forall2_nil.
Qed.

(** X16: for an integer up to [maxSafeInteger] on both sides,
    [numberToString] writes a sign and the decimal digits of the absolute
    value: a plus for zero and above, a minus below.  So the string tells
    the number. *)
Theorem X16_numberToString_signed : forall n,
  Z.abs n <= maxSafeInteger ->
  exists sign digits,
    numberToString n = Some (sign :: digits)
    /\ ((sign = 43 /\ 0 <= n) \/ (sign = 45 /\ n < 0))
    /\ digits <> []
    /\ Forall (fun c => 48 <= c <= 57) digits
    /\ decimalValue digits = Z.abs n.
Proof.
  intros n Hsafe. unfold numberToString, toStringZ.
  replace (Z.abs n <=? maxSafeInteger) with true
    by (symmetry; now apply Z.leb_le).
  cbn [option_map].
  destruct (Z.ltb_spec n 0) as [Hn|Hn].
  - replace (n >=? 0) with false by (rewrite Z.geb_leb; symmetry; apply Z.leb_gt; lia).
    exists 45, (JS.toString (Z.to_nat (- n))).
    split; [reflexivity|]. split; [right; split; [reflexivity | lia]|].
    split.
    { pose proof (ArrayFacts.toString_length_pos (Z.to_nat (- n))) as H.
      intros E. rewrite E in H. cbn in H. lia. }
    split; [apply ArrayFacts.toString_decimal|].
    rewrite ArrayFacts.toString_value. lia.
  - replace (n >=? 0) with true by (rewrite Z.geb_leb; symmetry; apply Z.leb_le; lia).
    exists 43, (JS.toString (Z.to_nat n)).
    split; [reflexivity|]. split; [left; split; [reflexivity | lia]|].
    split.
    { pose proof (ArrayFacts.toString_length_pos (Z.to_nat n)) as H.
      intros E. rewrite E in H. cbn in H. lia. }
    split; [apply ArrayFacts.toString_decimal|].
    rewrite ArrayFacts.toString_value. lia.
Qed.

Lemma X16_numberToString_signed_witness :
  Z.abs (-12) <= maxSafeInteger
  /\ exists sign digits,
       numberToString (-12) = Some (sign :: digits)
       /\ sign = 45
       /\ decimalValue digits = 12.
Proof.
  assert (Hsafe : Z.abs (-12) <= maxSafeInteger) by (unfold maxSafeInteger; lia).
  split; [exact Hsafe|].
  destruct (X16_numberToString_signed (-12) Hsafe)
    as (sign & digits & E & Hsign & _ & _ & Hval).
  exists sign, digits. split; [exact E|]. split; [|exact Hval].
  destruct Hsign as [[_ H]|[H _]]; [lia | exact H].
Defined.

(* ===================================================================== *)
(** ** Messages *)
(* ===================================================================== *)

(** X17: [echo] puts a prefix that is never empty before every line of the
    message: the prefix of the options, or [lspoints] and a space when the
    options have none or an empty one.  The commands are the loop over the
    lines alone, or, with a highlight, the loop between the command that
    sets the highlight and the one that resets it. *)
Theorem X17_echo_prefix_and_reset : forall message options,
  exists p loop,
    p <> []
    /\ snd (echo message options)
       = map (fun v => p ++ v)
             (match message with
              | oneString s => splitLines s
              | manyLines l => l
              end)
    /\ (truthyString (optField options prefix) = false -> p = str "[lspoints] ")
    /\ (truthyString (optField options prefix) = true ->
        optField options prefix = Some p)
    /\ length loop = 3%nat
    /\ (truthyString (optField options highlight) = false ->
        fst (echo message options) = loop)
    /\ (forall h, truthyString (optField options highlight) = true ->
        optField options highlight = Some h ->
        fst (echo message options)
          = [str "echohl " ++ h] ++ loop ++ [str "echohl None"]).
Proof.
  intros message options. unfold echo.
  set (echocmd := match optField options record with
                  | Some true => str "echomsg"
                  | _ => str "echo"
                  end).
  exists (match optField options prefix with
          | Some ((_ :: _) as p) => p
          | _ => str "[lspoints] "
          end),
         [str "for l:msg in l:msgs"; echocmd ++ str " l:msg"; str "endfor"].
  cbn [fst snd].
  split; [destruct (optField options prefix) as [[|c p]|]; discriminate|].
  split.
  { destruct (optField options prefix) as [[|c p]|]; reflexivity. }
  split.
  { destruct (optField options prefix) as [[|c p]|];
      [reflexivity | discriminate | reflexivity]. }
  split.
  { destruct (optField options prefix) as [[|c p]|];
      [discriminate | reflexivity | discriminate]. }
  split; [reflexivity|]. split.
  - destruct (optField options highlight) as [[|c h]|];
      [now rewrite app_nil_r | discriminate | now rewrite app_nil_r].
  - intros h Ht Eh. rewrite Eh in *. destruct h as [|c h]; [discriminate|].
    reflexivity.
Qed.

Lemma X17_echo_prefix_and_reset_witness :
  echo (oneString (str "a" ++ [10] ++ str "b"))
       (Some {| record := Some true;
                highlight := Some (str "WarningMsg");
                prefix := None |})
  = ([str "echohl WarningMsg"; str "for l:msg in l:msgs";
      str "echomsg l:msg"; str "endfor"; str "echohl None"],
     [str "[lspoints] a"; str "[lspoints] b"]).
Proof.
  destruct (X17_echo_prefix_and_reset
              (oneString (str "a" ++ [10] ++ str "b"))
              (Some {| record := Some true;
                       highlight := Some (str "WarningMsg");
                       prefix := None |}))
    as (p & loop & _ & Hm & Hp & _ & _ & _ & Hh).
  specialize (Hp eq_refl). subst p.
  specialize (Hh (str "WarningMsg") eq_refl eq_refl).
  reflexivity.
Defined.
